(** * Multibrand Token Exporter: colour resolution, tree building and export

    A shallow embedding of [src/core/utils.ts], [src/core/resolve.ts],
    [src/core/export.ts] and the export handler of [src/code.ts], followed by
    the properties of the export pipeline that the design document states. *)

From Stdlib Require Import ZArith Lia String Ascii List Bool OrderedTypeEx.
From Stdlib Require Import Floats.
From stdpp Require Import base option list gmap strings sorting.

Local Open Scope string_scope.
Local Open Scope Z_scope.

Set Warnings "-register-all".

(** ** JavaScript built-ins used by the plugin *)

(** Strings are kept in UTF-8: every ASCII character is one [ascii], and the
    arrow of a provenance chain is the three bytes of U+2192. *)

Module JS.

(** [Number]s that [Math.round] can produce: an integer, NaN or an infinity. *)
Inductive integral :=
| NaN
| Infinity (negative : bool)
| Int (z : Z).

(** [Math.round(x)]: the integer closest to [x], ties going up, that is
    [floor (x + 1/2)] computed exactly on the value [m * 2^e] of [x]. *)
Definition Math_round (x : float) : integral :=
  match Prim2SF x with
  | S754_nan => NaN
  | S754_infinity s => Infinity s
  | S754_zero _ => Int 0
  | S754_finite s m e =>
      let sm := if s then Z.neg m else Z.pos m in
      if 0 <=? e then Int (sm * 2 ^ e)
      else Int ((2 * sm + 2 ^ (- e)) / 2 ^ (1 - e))
  end.

Definition hexDigit (d : Z) : ascii :=
  if d <? 10 then ascii_of_nat (Z.to_nat (48 + d))
  else ascii_of_nat (Z.to_nat (87 + d)).

(** The digits of a positive integer in radix 16, most significant first. *)
Fixpoint hexDigits (fuel : nat) (n : Z) (acc : string) : string :=
  match fuel with
  | O => acc
  | S fuel' =>
      let acc' := String (hexDigit (n mod 16)) acc in
      if n / 16 =? 0 then acc' else hexDigits fuel' (n / 16) acc'
  end.

(** [n.toString(16)] for a value that [Math.round] returned. *)
Definition toString16 (n : integral) : string :=
  match n with
  | NaN => "NaN"
  | Infinity false => "Infinity"
  | Infinity true => "-Infinity"
  | Int z =>
      let digits a := hexDigits (S (Z.to_nat (Z.log2 a))) a "" in
      if z <? 0 then "-" ++ digits (- z) else digits z
  end.

Definition upperAscii (c : ascii) : ascii :=
  let n := nat_of_ascii c in
  if ((97 <=? n) && (n <=? 122))%nat then ascii_of_nat (n - 32) else c.

(** [s.toUpperCase()] on the strings [rgbaToHex] builds, which are ASCII. *)
Fixpoint toUpperCase (s : string) : string :=
  match s with
  | EmptyString => EmptyString
  | String c s' => String (upperAscii c) (toUpperCase s')
  end.

(** [s.includes(sub)]. *)
Fixpoint includes (s sub : string) : bool :=
  if String.prefix sub s then true
  else match s with
       | EmptyString => false
       | String _ s' => includes s' sub
       end.

(** One white-space character of the class [\s] at the head of [s], and the
    rest of [s] after it. *)
Definition whiteSpace (s : string) : option string :=
  match s with
  | String c rest =>
      let n := nat_of_ascii c in
      if ((9 <=? n) && (n <=? 13) || (n =? 32))%nat then Some rest
      else
        match n, rest with
        | 194%nat, String d r =>
            if (nat_of_ascii d =? 160)%nat then Some r else None
        | 225%nat, String d (String f r) =>
            if ((nat_of_ascii d =? 154) && (nat_of_ascii f =? 128))%nat
            then Some r else None
        | 226%nat, String d (String f r) =>
            let x := nat_of_ascii d in
            let y := nat_of_ascii f in
            if ((x =? 128) && ((128 <=? y) && (y <=? 138) || (y =? 168)
                               || (y =? 169) || (y =? 175))
                || (x =? 129) && (y =? 159))%nat
            then Some r else None
        | 227%nat, String d (String f r) =>
            if ((nat_of_ascii d =? 128) && (nat_of_ascii f =? 128))%nat
            then Some r else None
        | 239%nat, String d (String f r) =>
            if ((nat_of_ascii d =? 187) && (nat_of_ascii f =? 191))%nat
            then Some r else None
        | _, _ => None
        end
  | EmptyString => None
  end.

(** [s.replace(/\s+/g, by)]: every maximal run of white space becomes [by].
    [inRun] tells that the previous character belonged to a run. *)
Fixpoint replaceSpaces (fuel : nat) (inRun : bool) (by_ s : string) : string :=
  match fuel with
  | O => s
  | S fuel' =>
      match whiteSpace s with
      | Some rest =>
          (if inRun then "" else by_) ++ replaceSpaces fuel' true by_ rest
      | None =>
          match s with
          | EmptyString => EmptyString
          | String c rest => String c (replaceSpaces fuel' false by_ rest)
          end
      end
  end.

Definition replaceWhiteSpace (by_ s : string) : string :=
  replaceSpaces (S (String.length s)) false by_ s.

(** [s.replace(/\//g, by)]. *)
Fixpoint replaceSlashes (by_ s : string) : string :=
  match s with
  | EmptyString => EmptyString
  | String c rest =>
      if Ascii.eqb c "/" then by_ ++ replaceSlashes by_ rest
      else String c (replaceSlashes by_ rest)
  end.

(** [s.split("/")], never empty. *)
Fixpoint splitSlash (s : string) : list string :=
  match s with
  | EmptyString => [EmptyString]
  | String c rest =>
      if Ascii.eqb c "/" then EmptyString :: splitSlash rest
      else match splitSlash rest with
           | part :: parts => String c part :: parts
           | [] => [String c EmptyString]
           end
  end.

(** [/^\d+$/.test(s)]. *)
Fixpoint allDigits (s : string) : bool :=
  match s with
  | EmptyString => true
  | String c rest =>
      let n := nat_of_ascii c in
      ((48 <=? n) && (n <=? 57))%nat && allDigits rest
  end.

Definition isNumeric (s : string) : bool :=
  match s with
  | EmptyString => false
  | _ => allDigits s
  end.

End JS.

(** The two built-ins whose result depends on the Unicode tables and on the
    collation of the host: [String.prototype.toLowerCase] (which leaves the
    empty string empty) and [String.prototype.localeCompare]. *)
Class Locale := {
  toLowerCase : string -> string;
  localeCompare : string -> string -> Z;
  toLowerCase_empty : toLowerCase "" = ""
}.

(** [localeCompare] is a consistent comparator, as ECMAScript requires of it:
    swapping the arguments swaps the sign, and the order is transitive. *)
Class ConsistentLocale (L : Locale) := {
  localeCompare_swap : forall a b, localeCompare a b < 0 <-> 0 < localeCompare b a;
  localeCompare_trans : forall a b c,
      localeCompare a b <= 0 -> localeCompare b c <= 0 -> localeCompare a c <= 0
}.

(** ** Formatting utilities ([utils.ts]) *)

Record RGBA := { r : float; g : float; b : float; a : option float }.

Definition toHex (v : float) : string :=
  let hex := JS.toString16 (JS.Math_round (v * 255)%float) in
  if (String.length hex =? 1)%nat then "0" ++ hex else hex.

Definition rgbaToHex (c : RGBA) : string :=
  let r := toHex (r c) in
  let g := toHex (g c) in
  let b := toHex (b c) in
  match a c with
  | Some alpha =>
      if (alpha <? 1)%float
      then JS.toUpperCase ("#" ++ r ++ g ++ b ++ toHex alpha)
      else JS.toUpperCase ("#" ++ r ++ g ++ b)
  | None => JS.toUpperCase ("#" ++ r ++ g ++ b)
  end.

Definition sanitizeName `{Locale} (name : string) : string :=
  toLowerCase (JS.replaceSlashes "-" (JS.replaceWhiteSpace "-" name)).

Definition toKebabCase `{Locale} (name : string) : string :=
  toLowerCase (JS.replaceSlashes "-" (JS.replaceWhiteSpace "-" name)).

Definition sanitizeFolderName (name : string) : string :=
  JS.replaceSlashes "" (JS.replaceWhiteSpace "" name).

(** ** Host data: variables and collections *)

(** A value held by a variable at a mode. *)
Inductive VariableValue :=
| VBoolean (v : bool)
| VNumber (v : float)
| VString (v : string)
| VColor (c : RGBA)
| VAlias (id : string).

Inductive ResolvedType := BOOLEAN | COLOR | FLOAT | STRING.

Global Instance ResolvedType_eq_dec : EqDecision ResolvedType.
Proof. solve_decision. Defined.

(** A variable of the document. [valuesByMode] lists the properties of the
    object in enumeration order (mode identifiers are not array indices, so
    this is insertion order); reading a property takes its first entry. *)
Module Var.
Record t := {
  id : string;
  name : string;
  resolvedType : ResolvedType;
  variableCollectionId : string;
  valuesByMode : list (string * VariableValue)
}.
End Var.

Module Mode.
Record t := { modeId : string; name : string }.
End Mode.

Module Collection.
Record t := { id : string; name : string; modes : list Mode.t }.
End Collection.

(** The answer of an asynchronous lookup: the promise rejects, or resolves
    to a value or to [null]. *)
Inductive Lookup (A : Type) :=
| Rejects
| Resolves (v : option A).
Arguments Rejects {A}.
Arguments Resolves {A} v.

(** The document the plugin runs in, as the [figma] API exposes it. *)
Record Figma := {
  getLocalVariableCollections : list Collection.t;
  getLocalVariables : list Var.t;
  getVariableById : gmap string Var.t;
  getVariableCollectionById : string -> Lookup Collection.t;
  clockISO : string;
  clockMillis : Z
}.

Fixpoint property {V : Type} (key : string) (object : list (string * V)) : option V :=
  match object with
  | [] => None
  | (k, v) :: rest => if String.eqb k key then Some v else property key rest
  end.

(** JavaScript truthiness of a value read from [valuesByMode]. *)
Definition truthy (value : option VariableValue) : bool :=
  match value with
  | None => false
  | Some (VBoolean v) => v
  | Some (VNumber v) => negb (PrimFloat.is_nan v || PrimFloat.is_zero v)
  | Some (VString v) => negb (String.eqb v "")
  | Some (VColor _) => true
  | Some (VAlias _) => true
  end.

Definition parseColorValue (value : option VariableValue) : string :=
  match value with
  | Some (VColor c) => rgbaToHex c
  | _ => "#000000"
  end.

(** ** Colour resolver ([resolve.ts]) *)

Record ColorResult := { hex : string; primitiveName : string }.

Inductive BrandModeType := light | dark.

Definition brandModeTypeString (t : BrandModeType) : string :=
  match t with light => "light" | dark => "dark" end.

Definition isVariableAlias (value : option VariableValue) : bool :=
  match value with
  | Some (VAlias _) => true
  | _ => false
  end.

Definition createFallbackResult (primitiveName : string) : ColorResult :=
  {| hex := "#FF00FF"; primitiveName := primitiveName |}.

Definition resolveVariableValue (variable : Var.t) (modeId : string)
    (modeName : option string) : option ColorResult :=
  let value := property modeId variable.(Var.valuesByMode) in
  if negb (truthy value) then None
  else if negb (isVariableAlias value) then
    let suffix :=
      match modeName with
      | Some n => if String.eqb n "" then "" else " (" ++ n ++ ")"
      | None => ""
      end in
    Some {| hex := parseColorValue value;
            primitiveName := variable.(Var.name) ++ suffix |}
  else None.

Definition findMatchingMode `{Locale} (figma : Figma) (variable : Var.t)
    (brandModeType : BrandModeType) : option Mode.t :=
  if String.eqb variable.(Var.variableCollectionId) "" then None
  else
    match getVariableCollectionById figma variable.(Var.variableCollectionId) with
    | Rejects => None
    | Resolves None => None
    | Resolves (Some collection) =>
        List.find
          (fun mode => JS.includes (toLowerCase mode.(Mode.name))
                         (brandModeTypeString brandModeType))
          collection.(Collection.modes)
    end.

(** The last resort of [resolveColor]: the first mode the primitive has a
    value for, and the sentinel when that gives nothing either. *)
Definition firstAvailableMode (primitiveVar : Var.t) : ColorResult :=
  let fallbackResult :=
    match primitiveVar.(Var.valuesByMode) with
    | (firstMode, _) :: _ =>
        resolveVariableValue primitiveVar firstMode (Some "fallback")
    | [] => None
    end in
  match fallbackResult with
  | Some result => result
  | None => createFallbackResult ("Unresolved: " ++ primitiveVar.(Var.name))
  end.

(** [resolveColor] calls itself on the aliased variable; [fuel] bounds the
    depth of these calls, and [None] is a chain of aliases deeper than that
    (a cycle of aliases never returns). *)
Fixpoint resolveColor `{Locale} (fuel : nat) (figma : Figma) (variable : Var.t)
    (modeId primitiveModeId : string) (brandModeType : option BrandModeType)
    : option ColorResult :=
  match fuel with
  | O => None
  | S fuel' =>
      match property modeId variable.(Var.valuesByMode) with
      | Some (VAlias aliasId) =>
          match getVariableById figma !! aliasId with
          | None => Some (createFallbackResult "Unresolved")
          | Some primitiveVar =>
              match resolveVariableValue primitiveVar primitiveModeId None with
              | Some directResult => Some directResult
              | None =>
                  match brandModeType with
                  | None => Some (firstAvailableMode primitiveVar)
                  | Some modeType =>
                      match findMatchingMode figma primitiveVar modeType with
                      | None => Some (firstAvailableMode primitiveVar)
                      | Some matchingMode =>
                          match resolveVariableValue primitiveVar
                                  matchingMode.(Mode.modeId)
                                  (Some matchingMode.(Mode.name)) with
                          | Some modeResult => Some modeResult
                          | None =>
                              if isVariableAlias
                                   (property matchingMode.(Mode.modeId)
                                      primitiveVar.(Var.valuesByMode))
                              then
                                nestedResult ← resolveColor fuel' figma primitiveVar
                                  matchingMode.(Mode.modeId) matchingMode.(Mode.modeId)
                                  (Some modeType);
                                Some {| hex := hex nestedResult;
                                        primitiveName :=
                                          primitiveVar.(Var.name) ++ " → "
                                            ++ primitiveName nestedResult |}
                              else Some (firstAvailableMode primitiveVar)
                          end
                      end
                  end
              end
          end
      | value =>
          Some {| hex := parseColorValue value; primitiveName := "Raw" |}
      end
  end.

Module Binding.
Record t := { modeId : string; primitiveModeId : string }.
End Binding.

Module Brand.
Record t := {
  name : string;
  light : option Binding.t;
  dark : option Binding.t
}.
End Brand.

Module BrandResult.
Record t := { light : option ColorResult; dark : option ColorResult }.
End BrandResult.

(** One side of [resolveBrandColors]: nothing when the brand leaves the mode
    out (or its mode id is empty), the resolved colour otherwise. *)
Definition resolveBrandMode `{Locale} (fuel : nat) (figma : Figma)
    (variable : Var.t) (binding : option Binding.t) (modeType : BrandModeType)
    : option (option ColorResult) :=
  match binding with
  | Some bd =>
      if String.eqb bd.(Binding.modeId) "" then Some None
      else
        res ← resolveColor fuel figma variable bd.(Binding.modeId)
                bd.(Binding.primitiveModeId) (Some modeType);
        Some (Some res)
  | None => Some None
  end.

Definition resolveBrandColors `{Locale} (fuel : nat) (figma : Figma)
    (variable : Var.t) (brand : Brand.t) : option BrandResult.t :=
  lightResult ← resolveBrandMode fuel figma variable brand.(Brand.light) light;
  darkResult ← resolveBrandMode fuel figma variable brand.(Brand.dark) dark;
  Some {| BrandResult.light := lightResult; BrandResult.dark := darkResult |}.

(** ** Tree builder ([utils.ts]) *)

Module TokenObject.
Record t := {
  name : string;
  path : string;
  modes : gmap string BrandResult.t
}.
End TokenObject.

(** An entry of the tree: [Token] carries [type: "token"], [Group] carries
    [type: "group"] and its [children]. *)
Inductive Item :=
| Token (token : TokenObject.t)
| Group (name : string) (children : list Item).

Definition isGroup (item : Item) : bool :=
  match item with
  | Group _ _ => true
  | Token _ => false
  end.

Definition itemName (item : Item) : string :=
  match item with
  | Group name _ => name
  | Token token => token.(TokenObject.name)
  end.

(** [currentLevel.find(item => item.name === folderName && item.type === 'group')]:
    the position of the first such group and its children. *)
Fixpoint findGroup (folderName : string) (currentLevel : list Item)
    : option (nat * list Item) :=
  match currentLevel with
  | [] => None
  | Group name children :: rest =>
      if String.eqb name folderName then Some (O, children)
      else '(i, found) ← findGroup folderName rest; Some (S i, found)
  | Token _ :: rest =>
      '(i, found) ← findGroup folderName rest; Some (S i, found)
  end.

(** The array [rootArray] after the call: the group found on the way is
    updated where it stands, a missing one is pushed at the end of its level,
    and the token is pushed at the end of the innermost level. Every group
    is created here with a [children] array of its own, so no two levels
    share an array, and the mutation of the innermost level is the update of
    the path that leads to it. *)
Fixpoint insertTokenIntoTree (rootArray : list Item) (folders : list string)
    (tokenObj : TokenObject.t) : list Item :=
  match folders with
  | [] => (rootArray ++ [Token tokenObj])%list
  | folderName :: deeper =>
      match findGroup folderName rootArray with
      | Some (i, children) =>
          <[i := Group folderName (insertTokenIntoTree children deeper tokenObj)]>
            rootArray
      | None =>
          (rootArray ++ [Group folderName (insertTokenIntoTree [] deeper tokenObj)])%list
      end
  end.

Module Array.

Section Sort.
Context {A : Type} (compareFn : A -> A -> Z).

Fixpoint place (x : A) (sorted : list A) : list A :=
  match sorted with
  | [] => [x]
  | y :: rest =>
      if compareFn x y <=? 0 then x :: y :: rest else y :: place x rest
  end.

(** [items.sort(compareFn)]: the sort of ECMAScript is stable, so for a
    consistent comparator its result is the one that insertion from the
    right builds. *)
Definition sort (items : list A) : list A := foldr place [] items.
End Sort.

End Array.

Definition compareItems `{Locale} (a b : Item) : Z :=
  if isGroup a && negb (isGroup b) then -1
  else if negb (isGroup a) && isGroup b then 1
  else localeCompare (itemName a) (itemName b).

Fixpoint sortItem `{Locale} (item : Item) : Item :=
  match item with
  | Group name children =>
      Group name (Array.sort compareItems (map sortItem children))
  | Token token => Token token
  end.

Definition sortTokensAlphabetically `{Locale} (items : list Item) : list Item :=
  Array.sort compareItems (map sortItem items).

Record ExportMetadata := {
  exportedAt : string;
  timestamp : Z;
  version : string;
  generator : string
}.

Definition createExportMetadata (figma : Figma) : ExportMetadata :=
  {| exportedAt := clockISO figma;
     timestamp := clockMillis figma;
     version := "1.0.0";
     generator := "Multibrand Token Exporter" |}.

(** ** Export orchestrator ([export.ts]) *)

Module ExportConfig.
Record t := {
  tokenCollectionId : string;
  primitiveCollectionId : string;
  brands : list Brand.t;
  lang : option string
}.
End ExportConfig.

Record ExportData := { metadata : ExportMetadata; tokens : list Item }.

(** What the plugin does to its host. *)
Inductive HostEffect :=
| Notify (message : string)
| PostDownloadJson (data : ExportData).

(** How an asynchronous function ends; [OutOfFuel] is a resolution deeper
    than the fuel given. *)
Inductive Outcome (A : Type) :=
| Returned (value : A)
| Threw (message : string)
| OutOfFuel.
Arguments Returned {A} value.
Arguments Threw {A} message.
Arguments OutOfFuel {A}.

(** A run: the effects on the host in order, and how the run ended. *)
Definition Run (A : Type) : Type := list HostEffect * Outcome A.

Definition ret {A} (value : A) : Run A := ([], Returned value).

Definition bind {A B} (k : A -> Run B) (m : Run A) : Run B :=
  match m with
  | (effects, Returned value) =>
      let '(effects', outcome) := k value in ((effects ++ effects')%list, outcome)
  | (effects, Threw message) => (effects, Threw message)
  | (effects, OutOfFuel) => (effects, OutOfFuel)
  end.

Global Instance Run_ret : MRet Run := @ret.
Global Instance Run_bind : MBind Run := @bind.

Definition perform (effect : HostEffect) : Run unit := ([effect], Returned tt).
Definition throw {A} (message : string) : Run A := ([], Threw message).
Definition await {A} (result : option A) : Run A :=
  match result with
  | Some value => ret value
  | None => ([], OutOfFuel)
  end.

Record Translation := { analyzing : string; exportFinished : string }.

(** [translations[lang] || translations.en], for [lang] a language code. *)
Definition translations (lang : string) : Translation :=
  if String.eqb lang "fr" then
    {| analyzing := "⏳ Analyse en cours...";
       exportFinished := "✅ Export terminé !" |}
  else
    {| analyzing := "⏳ Analysing...";
       exportFinished := "✅ Export finished!" |}.

Record VariablePath := { folders : list string; filename : string }.

Definition parseVariablePath `{Locale} (variableName : string) : VariablePath :=
  let parts := JS.splitSlash variableName in
  let lastPart := List.last parts "" in
  let folders := map sanitizeFolderName (removelast parts) in
  let filename :=
    if JS.isNumeric lastPart && (1 <? length parts)%nat
    then toKebabCase (List.last (removelast parts) "") ++ "-" ++ lastPart
    else toKebabCase lastPart in
  {| folders := folders; filename := filename |}.

(** The loop of [createTokenObject] over the brands, [modes] being what has
    been assigned so far. *)
Fixpoint resolveBrands `{Locale} (fuel : nat) (figma : Figma) (variable : Var.t)
    (brands : list Brand.t) (modes : gmap string BrandResult.t)
    : option (gmap string BrandResult.t) :=
  match brands with
  | [] => Some modes
  | brand :: rest =>
      brandResult ← resolveBrandColors fuel figma variable brand;
      resolveBrands fuel figma variable rest
        (<[brand.(Brand.name) := brandResult]> modes)
  end.

Definition createTokenObject `{Locale} (fuel : nat) (figma : Figma)
    (variable : Var.t) (brands : list Brand.t) : option TokenObject.t :=
  modes ← resolveBrands fuel figma variable brands ∅;
  Some {| TokenObject.name := filename (parseVariablePath variable.(Var.name));
          TokenObject.path := variable.(Var.name);
          TokenObject.modes := modes |}.

(** The loop of [processVariables], [rootArray] being the tree built so far. *)
Fixpoint processLoop `{Locale} (fuel : nat) (figma : Figma)
    (variables : list Var.t) (brands : list Brand.t) (rootArray : list Item)
    : option (list Item) :=
  match variables with
  | [] => Some rootArray
  | variable :: rest =>
      if decide (variable.(Var.resolvedType) = COLOR) then
        tokenObj ← createTokenObject fuel figma variable brands;
        processLoop fuel figma rest brands
          (insertTokenIntoTree rootArray
             (folders (parseVariablePath variable.(Var.name))) tokenObj)
      else processLoop fuel figma rest brands rootArray
  end.

Definition processVariables `{Locale} (fuel : nat) (figma : Figma)
    (variables : list Var.t) (brands : list Brand.t) : option (list Item) :=
  processLoop fuel figma variables brands [].

Record Collections := {
  primitivesColl : Collection.t;
  tokensColl : Collection.t;
  variables : list Var.t
}.

Definition validateAndGetCollections (figma : Figma)
    (tokenCollectionId primitiveCollectionId : string) : Run Collections :=
  let collections := getLocalVariableCollections figma in
  let primitivesColl :=
    List.find (fun c => String.eqb c.(Collection.id) primitiveCollectionId)
      collections in
  let tokensColl :=
    List.find (fun c => String.eqb c.(Collection.id) tokenCollectionId)
      collections in
  match primitivesColl, tokensColl with
  | Some primitivesColl, Some tokensColl =>
      let allVariables := getLocalVariables figma in
      let variables :=
        List.filter
          (fun v => String.eqb v.(Var.variableCollectionId) tokenCollectionId)
          allVariables in
      ret {| primitivesColl := primitivesColl;
             tokensColl := tokensColl;
             variables := variables |}
  | _, _ => throw "Collections not found - please check your collection IDs"
  end.

(** [config.lang || 'en']. *)
Definition configLang (config : ExportConfig.t) : string :=
  match config.(ExportConfig.lang) with
  | Some lang => if String.eqb lang "" then "en" else lang
  | None => "en"
  end.

Definition exportTokens `{Locale} (fuel : nat) (figma : Figma)
    (config : ExportConfig.t) : Run unit :=
  let lang := configLang config in
  let t := translations lang in
  perform (Notify (analyzing t));;
  found ← validateAndGetCollections figma
            config.(ExportConfig.tokenCollectionId)
            config.(ExportConfig.primitiveCollectionId);
  rootArray ← await (processVariables fuel figma (variables found)
                       config.(ExportConfig.brands));
  let sortedTokens := sortTokensAlphabetically rootArray in
  let exportData :=
    {| metadata := createExportMetadata figma; tokens := sortedTokens |} in
  perform (PostDownloadJson exportData);;
  perform (Notify (exportFinished t)).

(** ** Export handler ([code.ts]) *)

Definition exportError (currentLang : string) : string :=
  if String.eqb currentLang "fr" then "❌ Erreur d'export : "
  else "❌ Export Error: ".

(** [handleExportRequest]: an error thrown by the export is caught here and
    shown as a notification (it is logged to the console too, which is not
    an effect on the host). *)
Definition handleExportRequest `{Locale} (fuel : nat) (figma : Figma)
    (currentLang : string) (config : ExportConfig.t) : Run unit :=
  match exportTokens fuel figma config with
  | (effects, Threw message) =>
      ((effects ++ [Notify (exportError currentLang ++ message)])%list,
       Returned tt)
  | run => run
  end.

(** * Vocabulary of the properties *)

(** ** Colour encoding *)

(** A channel lies between 0 and 1. *)
Definition unitInterval (v : float) : Prop :=
  (0 <=? v)%float = true /\ (v <=? 1)%float = true.

Definition channelsInUnitInterval (c : RGBA) : Prop :=
  unitInterval (r c) /\ unitInterval (g c) /\ unitInterval (b c)
  /\ match a c with
     | Some alpha => unitInterval alpha
     | None => True
     end.

(** The byte of a channel: the channel scaled by 255 and rounded. *)
Definition channelByte (v : float) : Z :=
  match JS.Math_round (v * 255)%float with
  | JS.Int n => n
  | _ => 0
  end.

Definition upperHexDigit (d : Z) : ascii :=
  match String.get (Z.to_nat d) "0123456789ABCDEF" with
  | Some c => c
  | None => "0"%char
  end.

(** A byte as two upper-case hexadecimal digits, the high one first. *)
Definition twoHexDigits (n : Z) : string :=
  String (upperHexDigit (n / 16)) (String (upperHexDigit (n mod 16)) "").

(** What [toHex] does with the rounded value [n]. *)
Definition padded (n : Z) : string :=
  let hex := JS.toString16 (JS.Int n) in
  if (String.length hex =? 1)%nat then "0" ++ hex else hex.

(** ** Colour resolver *)

(** A variable holds no raw value at a mode: it holds nothing there (or a
    falsy value), or an alias. *)
Definition noRawValue (variable : Var.t) (modeId : string) : Prop :=
  let value := property modeId variable.(Var.valuesByMode) in
  truthy value = false \/ isVariableAlias value = true.

(** ** Tree builder *)

(** [belowItem P item]: [P] holds of the children array of [item] when it is
    a group, and of the children array of every group below it. *)
Fixpoint belowItem (P : list Item -> Prop) (item : Item) : Prop :=
  match item with
  | Token _ => True
  | Group _ children =>
      P children
      /\ (fix each (level : list Item) : Prop :=
            match level with
            | [] => True
            | child :: rest => belowItem P child /\ each rest
            end) children
  end.

(** [everyLevel P items]: [P] holds of the array [items] and of the children
    array of every group at every depth. *)
Definition everyLevel (P : list Item -> Prop) (items : list Item) : Prop :=
  P items /\ Forall (belowItem P) items.

(** The names of the entries of type "group" of one array. *)
Definition groupNames (items : list Item) : list string :=
  omap (fun item => match item with
                    | Group name _ => Some name
                    | Token _ => None
                    end) items.

Definition uniqueGroupNames (items : list Item) : Prop :=
  everyLevel (fun level => NoDup (groupNames level)) items.

Definition insertAll (calls : list (list string * TokenObject.t)) : list Item :=
  foldl (fun rootArray call => insertTokenIntoTree rootArray call.1 call.2)
    [] calls.

(** ** Sorting *)

(** One array is ordered: its groups come first, then its tokens, and the
    names of each tier do not decrease under [localeCompare]. *)
Definition nonDecreasing `{Locale} (items : list Item) : Prop :=
  Sorted (fun a b => localeCompare (itemName a) (itemName b) <= 0) items.

Definition levelOrdered `{Locale} (items : list Item) : Prop :=
  exists groups tokens,
    items = (groups ++ tokens)%list
    /\ Forall (fun item => isGroup item = true) groups
    /\ Forall (fun item => isGroup item = false) tokens
    /\ nonDecreasing groups
    /\ nonDecreasing tokens.

(** ** Export *)

(** The tokens of a tree, in the order of a depth-first walk. *)
Fixpoint tokensOfItem (item : Item) : list TokenObject.t :=
  match item with
  | Token token => [token]
  | Group _ children => flat_map tokensOfItem children
  end.

Definition tokensOf (items : list Item) : list TokenObject.t :=
  flat_map tokensOfItem items.

(** The variables an export is about: those of the token collection whose
    type is COLOR, in the order of the document. *)
Definition colorVariables (figma : Figma) (tokenCollectionId : string)
    : list Var.t :=
  List.filter
    (fun v => String.eqb v.(Var.variableCollectionId) tokenCollectionId
              && bool_decide (v.(Var.resolvedType) = COLOR))
    (getLocalVariables figma).

(** The variables of the document: the local ones and those an identifier
    leads to. *)
Definition documentVariables (figma : Figma) : list Var.t :=
  (getLocalVariables figma
   ++ map snd (map_to_list (getVariableById figma)))%list.

(** Every alias of a variable of the document leads to a variable of
    smaller rank: no chain of aliases comes back to where it started. *)
Definition aliasesDescend (figma : Figma) (rank : Var.t -> nat) : Prop :=
  forall variable modeId aliasId target,
    variable ∈ documentVariables figma ->
    property modeId variable.(Var.valuesByMode) = Some (VAlias aliasId) ->
    getVariableById figma !! aliasId = Some target ->
    (rank target < rank variable)%nat.

(** The same, as a check that runs. *)
Definition aliasesDescendCheck (figma : Figma) (rank : Var.t -> nat) : bool :=
  forallb
    (fun variable =>
       forallb
         (fun entry =>
            match entry.2 with
            | VAlias aliasId =>
                match getVariableById figma !! aliasId with
                | Some target => (rank target <? rank variable)%nat
                | None => true
                end
            | _ => true
            end)
         variable.(Var.valuesByMode))
    (documentVariables figma).

Definition collectionsNotFound : string :=
  "Collections not found - please check your collection IDs".

(** ** Names and paths *)

Fixpoint stringForall (p : ascii -> bool) (s : string) : bool :=
  match s with
  | EmptyString => true
  | String c rest => p c && stringForall p rest
  end.

(** A white-space character of the ASCII range. *)
Definition asciiWhiteSpace (c : ascii) : bool :=
  let n := nat_of_ascii c in
  ((9 <=? n) && (n <=? 13) || (n =? 32))%nat.

Definition isSlash (c : ascii) : bool := Ascii.eqb c "/".

(** A folder name holds no slash and no ASCII white space. *)
Definition cleanFolderName (s : string) : bool :=
  stringForall (fun c => negb (isSlash c) && negb (asciiWhiteSpace c)) s.

Fixpoint countSlashes (s : string) : nat :=
  match s with
  | EmptyString => O
  | String c rest => if isSlash c then S (countSlashes rest) else countSlashes rest
  end.

(** ** Colour encoding *)

Definition isUpperHexDigit (c : ascii) : bool :=
  let n := nat_of_ascii c in
  ((48 <=? n) && (n <=? 57) || (65 <=? n) && (n <=? 70))%nat.

(** The alpha channel is written: it is defined and below 1. *)
Definition alphaShown (c : RGBA) : bool :=
  match a c with
  | Some alpha => (alpha <? 1)%float
  | None => false
  end.

(** ** Colour resolver *)

(** The search by brand mode type gives [resolveColor] nothing to return:
    no type was passed, no mode matches, or the primitive holds nothing at
    the mode found. *)
Definition fallsThrough `{Locale} (figma : Figma) (primitiveVar : Var.t)
    (brandModeType : option BrandModeType) : Prop :=
  match brandModeType with
  | None => True
  | Some modeType =>
      match findMatchingMode figma primitiveVar modeType with
      | None => True
      | Some matchingMode =>
          truthy (property matchingMode.(Mode.modeId)
                    primitiveVar.(Var.valuesByMode)) = false
      end
  end.

(** A call [resolveColor variable modeId primitiveModeId] with a brand mode
    type re-enters [resolveColor primitiveVar foundMode foundMode]. *)
Definition reenters `{Locale} (figma : Figma) (modeType : BrandModeType)
    (variable : Var.t) (modeId primitiveModeId : string)
    (primitiveVar : Var.t) (foundMode : string) : Prop :=
  exists aliasId matchingMode,
    property modeId variable.(Var.valuesByMode) = Some (VAlias aliasId)
    /\ getVariableById figma !! aliasId = Some primitiveVar
    /\ noRawValue primitiveVar primitiveModeId
    /\ findMatchingMode figma primitiveVar modeType = Some matchingMode
    /\ matchingMode.(Mode.modeId) = foundMode
    /\ isVariableAlias
         (property foundMode primitiveVar.(Var.valuesByMode)) = true.

(** A set of calls that is closed under re-entry: every call of the set
    re-enters a call of the set, as the calls along an alias cycle do. *)
Definition closedUnderReentry `{Locale} (figma : Figma)
    (modeType : BrandModeType) (calls : Var.t -> string -> string -> Prop)
    : Prop :=
  forall variable modeId primitiveModeId,
    calls variable modeId primitiveModeId ->
    exists primitiveVar foundMode,
      reenters figma modeType variable modeId primitiveModeId
        primitiveVar foundMode
      /\ calls primitiveVar foundMode foundMode.

(** Where the hex of a result comes from: the black of an unusable value,
    the magenta sentinel, or a raw colour that [variable] or a variable the
    document leads to holds at some mode. *)
Definition hexFrom (figma : Figma) (variable : Var.t) (hexCode : string)
    : Prop :=
  hexCode = "#000000" \/ hexCode = "#FF00FF"
  \/ exists holder holderMode c,
       (holder = variable
        \/ exists holderId, getVariableById figma !! holderId = Some holder)
       /\ property holderMode holder.(Var.valuesByMode) = Some (VColor c)
       /\ hexCode = rgbaToHex c.


(** ** Tree builder *)

(** The children of the first group of a name, in an array that has one. *)
Definition groupChildren (folderName : string) (items : list Item)
    : option (list Item) :=
  snd <$> findGroup folderName items.

(** The array reached from [items] by following [folders], at each level
    through the first group of the name. *)
Fixpoint levelAt (folders : list string) (items : list Item)
    : option (list Item) :=
  match folders with
  | [] => Some items
  | folderName :: deeper =>
      match findGroup folderName items with
      | Some (_, children) => levelAt deeper children
      | None => None
      end
  end.

(** The token is an entry of the array at the end of the folder path. *)
Definition tokenAt (folders : list string) (items : list Item)
    (tokenObj : TokenObject.t) : Prop :=
  exists level, levelAt folders items = Some level /\ Token tokenObj ∈ level.

(** What an entry shows at its own level: its type and its name. *)
Definition itemLabel (item : Item) : bool * string :=
  (isGroup item, itemName item).

(** ** Export *)

(** The token of a variable: at the folder path of its name, with the name
    of the variable as path and the file name of the variable as name. *)
Definition placed `{Locale} (items : list Item) (variable : Var.t) : Prop :=
  exists tokenObj,
    tokenAt (folders (parseVariablePath variable.(Var.name))) items tokenObj
    /\ tokenObj.(TokenObject.path) = variable.(Var.name)
    /\ tokenObj.(TokenObject.name)
       = filename (parseVariablePath variable.(Var.name)).


(** The binding of a brand for a mode type. *)
Definition bindingOf (brand : Brand.t) (modeType : BrandModeType)
    : option Binding.t :=
  match modeType with
  | light => brand.(Brand.light)
  | dark => brand.(Brand.dark)
  end.

(** Both collection ids of a configuration are ids of collections of the
    document. *)
Definition collectionsKnown (figma : Figma) (config : ExportConfig.t) : Prop :=
  config.(ExportConfig.tokenCollectionId)
    ∈ map Collection.id (getLocalVariableCollections figma)
  /\ config.(ExportConfig.primitiveCollectionId)
     ∈ map Collection.id (getLocalVariableCollections figma).

(** The variables of the token collection, of every type. *)
Definition tokenVariables (figma : Figma) (config : ExportConfig.t)
    : list Var.t :=
  List.filter
    (fun v => String.eqb v.(Var.variableCollectionId)
                config.(ExportConfig.tokenCollectionId))
    (getLocalVariables figma).

(** The effects of an export that completes with the tree [rootArray]. *)
Definition completedRun `{Locale} (figma : Figma) (config : ExportConfig.t)
    (rootArray : list Item) : list HostEffect :=
  [ Notify (analyzing (translations (configLang config)));
    PostDownloadJson
      {| metadata := createExportMetadata figma;
         tokens := sortTokensAlphabetically rootArray |};
    Notify (exportFinished (translations (configLang config))) ].

(** The documents a run posts, in order. *)
Definition postedDocuments (effects : list HostEffect) : list ExportData :=
  omap (fun effect => match effect with
                      | PostDownloadJson data => Some data
                      | Notify _ => None
                      end) effects.

(** ** A sample document

    A locale that lower-cases ASCII letters and collates by code unit, and a
    document with two collections, used to run the definitions. *)

Module Sample.

Definition lowerAscii (c : ascii) : ascii :=
  let n := nat_of_ascii c in
  if ((65 <=? n) && (n <=? 90))%nat then ascii_of_nat (n + 32) else c.

Fixpoint lower (s : string) : string :=
  match s with
  | EmptyString => EmptyString
  | String c s' => String (lowerAscii c) (lower s')
  end.

Definition collate (a b : string) : Z :=
  match String_as_OT.cmp a b with
  | Lt => -1
  | Eq => 0
  | Gt => 1
  end.

Definition locale : Locale :=
  {| toLowerCase := lower; localeCompare := collate;
     toLowerCase_empty := eq_refl |}.

Definition rgb (r g b : float) : VariableValue :=
  VColor {| r := r; g := g; b := b; a := Some 1%float |}.

(** Primitives: one collection with the modes of two brands. *)
Definition primitives : Collection.t :=
  {| Collection.id := "coll:prim"; Collection.name := "_Primitives";
     Collection.modes :=
       [ {| Mode.modeId := "p:1"; Mode.name := "Legacy Light" |};
         {| Mode.modeId := "p:2"; Mode.name := "Legacy Dark" |};
         {| Mode.modeId := "p:3"; Mode.name := "NewBrand Dark" |} ] |}.

Definition semantic : Collection.t :=
  {| Collection.id := "coll:tok"; Collection.name := "01. Modes";
     Collection.modes :=
       [ {| Mode.modeId := "t:1"; Mode.name := "Light" |};
         {| Mode.modeId := "t:2"; Mode.name := "Dark" |} ] |}.

(** A primitive with a colour for every mode. *)
Definition gray50 : Var.t :=
  {| Var.id := "v:gray50"; Var.name := "UI/Color/Gray/50";
     Var.resolvedType := COLOR; Var.variableCollectionId := "coll:prim";
     Var.valuesByMode :=
       [ ("p:1", rgb 1 1 1); ("p:2", rgb 0 0 0); ("p:3", rgb 0 0 1) ] |}.

(** A primitive with no colour for the second mode. *)
Definition brand700 : Var.t :=
  {| Var.id := "v:brand700"; Var.name := "UI/Color/Brand/700";
     Var.resolvedType := COLOR; Var.variableCollectionId := "coll:prim";
     Var.valuesByMode := [ ("p:1", rgb 1 1 1); ("p:3", rgb 1 0 0) ] |}.

(** A primitive that aliases another one in its dark mode. *)
Definition accent : Var.t :=
  {| Var.id := "v:accent"; Var.name := "UI/Color/Accent";
     Var.resolvedType := COLOR; Var.variableCollectionId := "coll:prim";
     Var.valuesByMode := [ ("p:2", VAlias "v:gray50") ] |}.

Definition borderPrimary : Var.t :=
  {| Var.id := "v:border"; Var.name := "Colors/Border/Primary";
     Var.resolvedType := COLOR; Var.variableCollectionId := "coll:tok";
     Var.valuesByMode :=
       [ ("t:1", VAlias "v:gray50"); ("t:2", VAlias "v:brand700") ] |}.

Definition backgroundPrimary : Var.t :=
  {| Var.id := "v:background"; Var.name := "Colors/Background/Primary";
     Var.resolvedType := COLOR; Var.variableCollectionId := "coll:tok";
     Var.valuesByMode :=
       [ ("t:1", VAlias "v:accent"); ("t:2", VAlias "v:accent") ] |}.

Definition privateToken : Var.t :=
  {| Var.id := "v:private"; Var.name := "_private/#draft";
     Var.resolvedType := COLOR; Var.variableCollectionId := "coll:tok";
     Var.valuesByMode :=
       [ ("t:1", rgb 1 0 0); ("t:2", VAlias "v:missing") ] |}.

Definition spacing : Var.t :=
  {| Var.id := "v:spacing"; Var.name := "Spacing/4";
     Var.resolvedType := FLOAT; Var.variableCollectionId := "coll:tok";
     Var.valuesByMode := [ ("t:1", VNumber 4); ("t:2", VNumber 4) ] |}.

Definition allVariables : list Var.t :=
  [ gray50; brand700; accent; borderPrimary; spacing; privateToken;
    backgroundPrimary ].

Definition figma : Figma :=
  {| getLocalVariableCollections := [ primitives; semantic ];
     getLocalVariables := allVariables;
     getVariableById :=
       list_to_map (map (fun v => (v.(Var.id), v)) allVariables);
     getVariableCollectionById := fun id =>
       Resolves
         (List.find (fun c => String.eqb c.(Collection.id) id)
            [ primitives; semantic ]);
     clockISO := "2026-01-28T14:32:45.123Z";
     clockMillis := 1769610765123 |}.

Definition legacy : Brand.t :=
  {| Brand.name := "Legacy";
     Brand.light := Some {| Binding.modeId := "t:1"; Binding.primitiveModeId := "p:1" |};
     Brand.dark := Some {| Binding.modeId := "t:2"; Binding.primitiveModeId := "p:2" |} |}.

Definition config : ExportConfig.t :=
  {| ExportConfig.tokenCollectionId := "coll:tok";
     ExportConfig.primitiveCollectionId := "coll:prim";
     ExportConfig.brands := [ legacy ];
     ExportConfig.lang := Some "en" |}.

(** The length of the longest chain of aliases that starts at a variable
    of the sample. *)
Definition rank (variable : Var.t) : nat :=
  if String.eqb variable.(Var.id) "v:accent" then 1
  else if String.eqb variable.(Var.id) "v:border" then 1
  else if String.eqb variable.(Var.id) "v:background" then 2
  else 0.

Definition unknownConfig : ExportConfig.t :=
  {| ExportConfig.tokenCollectionId := "coll:gone";
     ExportConfig.primitiveCollectionId := "coll:prim";
     ExportConfig.brands := [ legacy ];
     ExportConfig.lang := Some "fr" |}.

Definition token (name : string) : TokenObject.t :=
  {| TokenObject.name := name; TokenObject.path := name;
     TokenObject.modes := ∅ |}.

Definition unsorted : list Item :=
  [ Token (token "zinc");
    Group "Text" [ Token (token "muted"); Group "Link" []; Token (token "base") ];
    Token (token "amber");
    Group "Border" [] ].

Definition calls : list (list string * TokenObject.t) :=
  [ (["Colors"; "Border"], token "primary");
    (["Colors"; "Background"], token "primary");
    ([], token "loose") ].

End Sample.

(** A document with a cycle of aliases: in the only mode, "Dark", each of two
    variables aliases the other. *)
Module Loop.

Definition collection : Collection.t :=
  {| Collection.id := "coll:loop"; Collection.name := "Loop";
     Collection.modes := [ {| Mode.modeId := "d:1"; Mode.name := "Dark" |} ] |}.

Definition ping : Var.t :=
  {| Var.id := "v:ping"; Var.name := "Loop/Ping";
     Var.resolvedType := COLOR; Var.variableCollectionId := "coll:loop";
     Var.valuesByMode := [ ("d:1", VAlias "v:pong") ] |}.

Definition pong : Var.t :=
  {| Var.id := "v:pong"; Var.name := "Loop/Pong";
     Var.resolvedType := COLOR; Var.variableCollectionId := "coll:loop";
     Var.valuesByMode := [ ("d:1", VAlias "v:ping") ] |}.

Definition figma : Figma :=
  {| getLocalVariableCollections := [ collection ];
     getLocalVariables := [ ping; pong ];
     getVariableById := {[ "v:ping" := ping; "v:pong" := pong ]};
     getVariableCollectionById := fun id =>
       if String.eqb id "coll:loop" then Resolves (Some collection)
       else Resolves None;
     clockISO := "2026-01-28T14:32:45.123Z";
     clockMillis := 1769610765123 |}.

Definition calls (variable : Var.t) (modeId primitiveModeId : string) : Prop :=
  (variable = ping \/ variable = pong)
  /\ modeId = "d:1" /\ primitiveModeId = "d:1".

Definition config : ExportConfig.t :=
  {| ExportConfig.tokenCollectionId := "coll:loop";
     ExportConfig.primitiveCollectionId := "coll:loop";
     ExportConfig.brands :=
       [ {| Brand.name := "Only";
            Brand.light := None;
            Brand.dark := Some {| Binding.modeId := "d:1";
                                  Binding.primitiveModeId := "d:1" |} |} ];
     ExportConfig.lang := None |}.

End Loop.

(** A brand with a light binding and a dark binding without mode. *)
Module Partial.

Definition lightOnly : Brand.t :=
  {| Brand.name := "Light only";
     Brand.light := Some {| Binding.modeId := "t:1";
                            Binding.primitiveModeId := "p:1" |};
     Brand.dark := Some {| Binding.modeId := "";
                           Binding.primitiveModeId := "p:2" |} |}.

Definition colours : BrandResult.t :=
  {| BrandResult.light :=
       Some {| hex := "#FFFFFF"; primitiveName := "UI/Color/Gray/50" |};
     BrandResult.dark := None |}.

End Partial.


(** * Properties *)

(** ** Colour resolver *)

Section Resolver.
Context `{L : Locale}.

Lemma includes_empty (sub : string) :
  JS.includes "" sub = true -> sub = "".
Proof.
  destruct sub as [|c sub]; [reflexivity|]. cbn. discriminate.
Qed.

Lemma find_first {A} (f : A -> bool) (earlier later : list A) (x : A) :
  Forall (fun y => f y = false) earlier -> f x = true ->
  List.find f (earlier ++ x :: later) = Some x.
Proof.
  induction 1 as [|y earlier Hy _ IH]; cbn; intros Hx.
  - now rewrite Hx.
  - rewrite Hy. now apply IH.
Qed.

Lemma find_first_inv {A} (f : A -> bool) (l : list A) (x : A) :
  List.find f l = Some x ->
  exists earlier later,
    l = (earlier ++ x :: later)%list
    /\ Forall (fun y => f y = false) earlier /\ f x = true.
Proof.
  induction l as [|y l IH]; cbn; [discriminate|].
  destruct (f y) eqn:Hy.
  - intros [= ->]. now exists [], l.
  - intros (earlier & later & -> & Hall & Hx)%IH.
    exists (y :: earlier), later. repeat split; auto.
Qed.

(** The mode a fallback search finds has a name. *)
Lemma findMatchingMode_named figma variable modeType matchingMode :
  findMatchingMode figma variable modeType = Some matchingMode ->
  matchingMode.(Mode.name) <> "".
Proof.
  unfold findMatchingMode.
  destruct (String.eqb _ ""); [discriminate|].
  destruct (getVariableCollectionById _ _) as [|[collection|]];
    try discriminate.
  intros (_ & _ & _ & _ & Hin)%find_first_inv Hname.
  rewrite Hname, toLowerCase_empty in Hin.
  apply includes_empty in Hin. now destruct modeType.
Qed.

Lemma resolveVariableValue_noRawValue variable modeId modeName :
  noRawValue variable modeId ->
  resolveVariableValue variable modeId modeName = None.
Proof.
  unfold noRawValue, resolveVariableValue. intros [-> | Halias]; [reflexivity|].
  rewrite Halias. now destruct (truthy _).
Qed.

Lemma resolveVariableValue_color variable modeId modeName c :
  property modeId variable.(Var.valuesByMode) = Some (VColor c) ->
  modeName <> "" ->
  resolveVariableValue variable modeId (Some modeName)
  = Some {| hex := rgbaToHex c;
            primitiveName := variable.(Var.name) ++ " (" ++ modeName ++ ")" |}.
Proof.
  unfold resolveVariableValue. intros -> Hname. cbn.
  now apply String.eqb_neq in Hname as ->.
Qed.

(** More fuel does not change a result. *)
Lemma resolveColor_more_fuel fuel : forall figma variable modeId
    primitiveModeId brandModeType result,
  resolveColor fuel figma variable modeId primitiveModeId brandModeType
  = Some result ->
  resolveColor (S fuel) figma variable modeId primitiveModeId brandModeType
  = Some result.
Proof.
  induction fuel as [|fuel IH];
    intros figma variable modeId primitiveModeId brandModeType result;
    [discriminate|].
  intros Hresult. cbn [resolveColor] in Hresult |- *.
  destruct (property modeId _) as [[| | | |aliasId]|]; try exact Hresult.
  destruct (getVariableById figma !! aliasId) as [primitiveVar|];
    [|exact Hresult].
  destruct (resolveVariableValue primitiveVar primitiveModeId None);
    [exact Hresult|].
  destruct brandModeType as [modeType|]; [|exact Hresult].
  destruct (findMatchingMode figma primitiveVar modeType) as [matchingMode|];
    [|exact Hresult].
  destruct (resolveVariableValue primitiveVar _ (Some _)); [exact Hresult|].
  destruct (isVariableAlias _); [|exact Hresult].
  destruct (resolveColor fuel figma primitiveVar _ _ _) as [nested|] eqn:Hnested;
    [|discriminate].
  apply IH in Hnested. cbn [resolveColor] in Hnested. now rewrite Hnested.
Qed.

(** C9. When the variable has no value at the requested mode, or has there
    a value that is neither an alias nor an RGBA object, [resolveColor]
    returns black with provenance "Raw". *)
Theorem resolveColor_missing_mode_is_black
    fuel figma variable modeId primitiveModeId brandModeType :
  match property modeId variable.(Var.valuesByMode) with
  | None => True
  | Some (VAlias _) | Some (VColor _) => False
  | Some _ => True
  end ->
  resolveColor (S fuel) figma variable modeId primitiveModeId brandModeType
  = Some {| hex := "#000000"; primitiveName := "Raw" |}.
Proof.
  cbn [resolveColor].
  destruct (property modeId _) as [[]|]; cbn; intros Hvalue;
    solve [reflexivity | contradiction].
Qed.

(** C5. When the value at the requested mode is an alias whose target the
    document cannot produce, [resolveColor] returns the magenta sentinel
    with provenance "Unresolved"; it does not throw. *)
Theorem resolveColor_unresolved_alias
    fuel figma variable modeId primitiveModeId brandModeType aliasId :
  property modeId variable.(Var.valuesByMode) = Some (VAlias aliasId) ->
  getVariableById figma !! aliasId = None ->
  resolveColor (S fuel) figma variable modeId primitiveModeId brandModeType
  = Some {| hex := "#FF00FF"; primitiveName := "Unresolved" |}.
Proof.
  intros Hvalue Htarget. cbn [resolveColor]. now rewrite Hvalue, Htarget.
Qed.

(** C1. When the value at the requested mode aliases a primitive that has
    no raw value at the primitive mode, and the fallback search finds a
    mode at which the primitive holds an alias again, [resolveColor]
    resolves the primitive with the found mode as both modes, and returns
    the hex of that result, with the primitive's name and the nested
    provenance joined by an arrow. *)
Theorem resolveColor_recurses_through_alias
    fuel figma variable modeId primitiveModeId modeType
    aliasId primitiveVar matchingMode nestedId :
  property modeId variable.(Var.valuesByMode) = Some (VAlias aliasId) ->
  getVariableById figma !! aliasId = Some primitiveVar ->
  noRawValue primitiveVar primitiveModeId ->
  findMatchingMode figma primitiveVar modeType = Some matchingMode ->
  property matchingMode.(Mode.modeId) primitiveVar.(Var.valuesByMode)
  = Some (VAlias nestedId) ->
  resolveColor (S fuel) figma variable modeId primitiveModeId (Some modeType)
  = (fun nestedResult =>
       {| hex := hex nestedResult;
          primitiveName :=
            primitiveVar.(Var.name) ++ " → " ++ primitiveName nestedResult |})
    <$> resolveColor fuel figma primitiveVar matchingMode.(Mode.modeId)
          matchingMode.(Mode.modeId) (Some modeType).
Proof.
  intros Hvalue Htarget Hdirect Hmode Hnested. cbn [resolveColor].
  rewrite Hvalue, Htarget, (resolveVariableValue_noRawValue _ _ _ Hdirect), Hmode.
  rewrite resolveVariableValue_noRawValue
    by (right; now rewrite Hnested).
  rewrite Hnested. cbn [isVariableAlias].
  now destruct (resolveColor fuel _ _ _ _ _).
Qed.

(** C4, amended. When the value at the requested mode aliases a primitive
    that has no value at the primitive mode, and the first mode of the
    primitive's collection whose lower-cased name contains the brand mode
    type holds a raw colour of the primitive, [resolveColor] returns the
    hex of that colour with the primitive's name followed by the mode name
    in parentheses. *)
Theorem resolveColor_first_matching_mode
    fuel figma variable modeId primitiveModeId modeType
    aliasId primitiveVar collection earlier matchingMode later c :
  property modeId variable.(Var.valuesByMode) = Some (VAlias aliasId) ->
  getVariableById figma !! aliasId = Some primitiveVar ->
  property primitiveModeId primitiveVar.(Var.valuesByMode) = None ->
  primitiveVar.(Var.variableCollectionId) <> "" ->
  getVariableCollectionById figma primitiveVar.(Var.variableCollectionId)
  = Resolves (Some collection) ->
  collection.(Collection.modes) = (earlier ++ matchingMode :: later)%list ->
  Forall (fun mode => JS.includes (toLowerCase mode.(Mode.name))
                        (brandModeTypeString modeType) = false) earlier ->
  JS.includes (toLowerCase matchingMode.(Mode.name))
    (brandModeTypeString modeType) = true ->
  property matchingMode.(Mode.modeId) primitiveVar.(Var.valuesByMode)
  = Some (VColor c) ->
  resolveColor (S fuel) figma variable modeId primitiveModeId (Some modeType)
  = Some {| hex := rgbaToHex c;
            primitiveName :=
              primitiveVar.(Var.name) ++ " (" ++ matchingMode.(Mode.name) ++ ")" |}.
Proof.
  intros Hvalue Htarget Hdirect Hcoll Hlookup Hmodes Hearlier Hmatch Hcolor.
  assert (Hfound : findMatchingMode figma primitiveVar modeType
                   = Some matchingMode).
  { unfold findMatchingMode.
    apply String.eqb_neq in Hcoll as ->.
    rewrite Hlookup, Hmodes. now apply find_first. }
  cbn [resolveColor].
  rewrite Hvalue, Htarget.
  rewrite resolveVariableValue_noRawValue
    by (left; unfold noRawValue; now rewrite Hdirect).
  rewrite Hfound.
  rewrite (resolveVariableValue_color _ _ _ c Hcolor); [reflexivity|].
  eapply findMatchingMode_named, Hfound.
Qed.

End Resolver.

(** ** Tree builder *)

Section Tree.

Lemma Item_nested_ind (P : Item -> Prop) :
  (forall token, P (Token token)) ->
  (forall name children, Forall P children -> P (Group name children)) ->
  forall item, P item.
Proof.
  intros Htoken Hgroup.
  fix IH 1. intros [token | name children].
  - apply Htoken.
  - apply Hgroup. induction children as [|child children IHc];
      constructor; [apply IH | apply IHc].
Qed.

Lemma belowItem_Group P name children :
  belowItem P (Group name children) <-> everyLevel P children.
Proof.
  unfold everyLevel. cbn. apply and_iff_compat_l.
  induction children as [|child children IH]; [now split; constructor|].
  rewrite Forall_cons. now apply and_iff_compat_l.
Qed.

Lemma groupNames_app items items' :
  groupNames (items ++ items') = (groupNames items ++ groupNames items')%list.
Proof. apply omap_app. Qed.

Lemma findGroup_None folderName items :
  findGroup folderName items = None -> folderName ∉ groupNames items.
Proof.
  induction items as [|[token | name children] items IH]; cbn.
  - intros _. apply not_elem_of_nil.
  - destruct (findGroup folderName items) as [[i found]|]; [discriminate|].
    intros _. now apply IH.
  - destruct (String.eqb_spec name folderName) as [-> | Hname];
      [discriminate|].
    destruct (findGroup folderName items) as [[i found]|]; [discriminate|].
    intros _. rewrite not_elem_of_cons. split; [congruence | now apply IH].
Qed.

Lemma findGroup_middle folderName earlier children later :
  folderName ∉ groupNames earlier ->
  findGroup folderName (earlier ++ Group folderName children :: later)
  = Some (length earlier, children).
Proof.
  induction earlier as [|[token | name grandchildren] earlier IH]; cbn.
  - intros _. now rewrite String.eqb_refl.
  - intros Hfresh. now rewrite IH.
  - rewrite not_elem_of_cons. intros [Hname Hfresh].
    destruct (String.eqb_spec name folderName) as [-> | _]; [congruence|].
    now rewrite IH.
Qed.

Lemma findGroup_Some folderName items i children :
  findGroup folderName items = Some (i, children) ->
  exists earlier later,
    items = (earlier ++ Group folderName children :: later)%list
    /\ length earlier = i.
Proof.
  revert i. induction items as [|[token | name grandchildren] items IH];
    cbn; intros i; [discriminate| |].
  - destruct (findGroup folderName items) as [[j found]|]; [|discriminate].
    intros [= <- <-]. destruct (IH j eq_refl) as (earlier & later & -> & <-).
    now exists (Token token :: earlier), later.
  - destruct (String.eqb_spec name folderName) as [-> | _].
    + intros [= <- <-]. now exists [], items.
    + destruct (findGroup folderName items) as [[j found]|]; [|discriminate].
      intros [= <- <-]. destruct (IH j eq_refl) as (earlier & later & -> & <-).
      now exists (Group name grandchildren :: earlier), later.
Qed.

(** A group that is missing at a level is pushed at its end, and the rest
    of the path is inserted into its empty children. *)
Lemma insertTokenIntoTree_creates rootArray folderName deeper tokenObj :
  folderName ∉ groupNames rootArray ->
  insertTokenIntoTree rootArray (folderName :: deeper) tokenObj
  = (rootArray
     ++ [Group folderName (insertTokenIntoTree [] deeper tokenObj)])%list.
Proof.
  intros Hfresh. cbn.
  destruct (findGroup folderName rootArray) as [[i children]|] eqn:Hfind;
    [|reflexivity].
  apply findGroup_Some in Hfind as (earlier & later & -> & _).
  exfalso. apply Hfresh. rewrite groupNames_app. cbn. set_solver.
Qed.

(** The first group of the name at a level is kept where it stands, and
    the rest of the path is inserted into its children. *)
Lemma insertTokenIntoTree_reuses earlier children later folderName deeper tokenObj :
  folderName ∉ groupNames earlier ->
  insertTokenIntoTree (earlier ++ Group folderName children :: later)
    (folderName :: deeper) tokenObj
  = (earlier
     ++ Group folderName (insertTokenIntoTree children deeper tokenObj)
     :: later)%list.
Proof.
  intros Hfresh. cbn. rewrite findGroup_middle by assumption.
  replace (length earlier) with (length earlier + 0)%nat by lia.
  now rewrite insert_app_r.
Qed.

Lemma uniqueGroupNames_nil : uniqueGroupNames [].
Proof. split; constructor. Qed.

Lemma insertTokenIntoTree_unique folders : forall rootArray tokenObj,
  uniqueGroupNames rootArray ->
  uniqueGroupNames (insertTokenIntoTree rootArray folders tokenObj).
Proof.
  induction folders as [|folderName deeper IH]; intros rootArray tokenObj
    [Hnames Hbelow]; cbn beta in Hnames.
  - split; cbn [insertTokenIntoTree].
    + rewrite groupNames_app. cbn. now rewrite app_nil_r.
    + apply Forall_app. split; [assumption|]. now repeat constructor.
  - cbn [insertTokenIntoTree].
    destruct (findGroup folderName rootArray) as [[i children]|] eqn:Hfind.
    + apply findGroup_Some in Hfind as (earlier & later & -> & <-).
      replace (length earlier) with (length earlier + 0)%nat by lia.
      rewrite insert_app_r. cbn. split; cbn beta.
      * now rewrite groupNames_app in *.
      * apply Forall_app in Hbelow as [Hearlier Hrest].
        apply Forall_cons in Hrest as [Hgroup Hlater].
        apply Forall_app. split; [assumption|].
        apply Forall_cons. split; [|assumption].
        apply belowItem_Group, IH. now apply belowItem_Group in Hgroup.
    + apply findGroup_None in Hfind. split; cbn beta.
      * rewrite groupNames_app. cbn. apply NoDup_app.
        split; [assumption|]. split; [|apply NoDup_singleton].
        intros name Hin ->%list_elem_of_singleton. contradiction.
      * apply Forall_app. split; [assumption|].
        apply Forall_singleton, belowItem_Group, IH, uniqueGroupNames_nil.
Qed.

Lemma insertAll_snoc calls folders tokenObj :
  insertAll (calls ++ [(folders, tokenObj)])
  = insertTokenIntoTree (insertAll calls) folders tokenObj.
Proof. unfold insertAll. now rewrite foldl_app. Qed.

Lemma insertAll_unique calls : uniqueGroupNames (insertAll calls).
Proof.
  induction calls as [|[folders tokenObj] calls IH] using rev_ind.
  - apply uniqueGroupNames_nil.
  - rewrite insertAll_snoc. now apply insertTokenIntoTree_unique.
Qed.

(** C6. After any sequence of insertions into an empty root, no array of
    the tree holds two groups of one name; and the next insertion pushes a
    new group, with the rest of the path inserted into empty children, at
    the end of a level that has no group of the name, and otherwise
    descends into the group of that name where it stands. *)
Theorem insertTokenIntoTree_merges_groups
    (calls : list (list string * TokenObject.t))
    (folderName : string) (deeper : list string) (tokenObj : TokenObject.t) :
  let rootArray := insertAll calls in
  uniqueGroupNames rootArray
  /\ (folderName ∉ groupNames rootArray ->
      insertTokenIntoTree rootArray (folderName :: deeper) tokenObj
      = (rootArray
         ++ [Group folderName (insertTokenIntoTree [] deeper tokenObj)])%list)
  /\ (forall earlier children later,
        rootArray = (earlier ++ Group folderName children :: later)%list ->
        insertTokenIntoTree rootArray (folderName :: deeper) tokenObj
        = (earlier
           ++ Group folderName (insertTokenIntoTree children deeper tokenObj)
           :: later)%list).
Proof.
  intros rootArray. pose proof (insertAll_unique calls) as Hunique.
  split; [assumption|]. split.
  - apply insertTokenIntoTree_creates.
  - intros earlier children later Hshape. rewrite Hshape.
    apply insertTokenIntoTree_reuses.
    destruct Hunique as [Hnames _]. cbn beta in Hnames.
    fold rootArray in Hnames.
    rewrite Hshape, groupNames_app in Hnames. cbn in Hnames.
    apply NoDup_app in Hnames as (_ & Hdisjoint & _).
    intros Hin. apply (Hdisjoint _ Hin). set_solver.
Qed.

End Tree.

(** ** Sorting *)

Section ArraySort.
Context {A : Type} (compareFn : A -> A -> Z).
Hypothesis compareFn_total : forall a b, 0 < compareFn a b -> compareFn b a <= 0.

Let le (a b : A) : Prop := compareFn a b <= 0.

Lemma place_Permutation x items : Array.place compareFn x items ≡ₚ x :: items.
Proof.
  induction items as [|y items IH]; cbn; [reflexivity|].
  destruct (compareFn x y <=? 0); [reflexivity|].
  rewrite IH. apply perm_swap.
Qed.

Lemma sort_Permutation items : Array.sort compareFn items ≡ₚ items.
Proof.
  induction items as [|x items IH]; cbn; [reflexivity|].
  rewrite place_Permutation. now constructor.
Qed.

Lemma place_HdRel x y items :
  le y x -> HdRel le y items -> HdRel le y (Array.place compareFn x items).
Proof.
  intros Hyx Hhd. destruct items as [|z items]; cbn.
  - now constructor.
  - destruct (compareFn x z <=? 0); constructor; [assumption|].
    now inversion Hhd.
Qed.

Lemma place_Sorted x items :
  Sorted le items -> Sorted le (Array.place compareFn x items).
Proof.
  induction 1 as [|y items Hsorted IH Hhd]; cbn.
  - repeat constructor.
  - destruct (Z.leb_spec (compareFn x y) 0) as [Hxy | Hxy].
    + repeat constructor; assumption.
    + constructor; [assumption|].
      apply place_HdRel; [|assumption]. now apply compareFn_total.
Qed.

Lemma sort_Sorted items : Sorted le (Array.sort compareFn items).
Proof.
  induction items as [|x items IH]; cbn; [constructor|].
  now apply place_Sorted.
Qed.

(** Sorting leaves a sorted array as it is. *)
Lemma sort_of_Sorted items :
  Sorted le items -> Array.sort compareFn items = items.
Proof.
  induction 1 as [|x items Hsorted IH Hhd]; cbn; [reflexivity|].
  unfold Array.sort in IH. rewrite IH.
  destruct Hhd as [|y items Hxy]; cbn; [reflexivity|].
  now apply Z.leb_le in Hxy as ->.
Qed.

Lemma sort_sort items :
  Array.sort compareFn (Array.sort compareFn items) = Array.sort compareFn items.
Proof. apply sort_of_Sorted, sort_Sorted. Qed.

End ArraySort.

Lemma sort_map {A B} (compareA : A -> A -> Z) (compareB : B -> B -> Z)
    (f : A -> B) (items : list A) :
  (forall a a', compareB (f a) (f a') = compareA a a') ->
  map f (Array.sort compareA items) = Array.sort compareB (map f items).
Proof.
  intros Hcompare.
  assert (Hplace : forall x sorted,
             map f (Array.place compareA x sorted)
             = Array.place compareB (f x) (map f sorted)).
  { intros x sorted. induction sorted as [|y sorted IH]; cbn; [reflexivity|].
    rewrite Hcompare. destruct (compareA x y <=? 0); cbn; [reflexivity|].
    now rewrite IH. }
  induction items as [|x items IH]; cbn; [reflexivity|].
  rewrite Hplace. f_equal. exact IH.
Qed.

Section Sorting.
Context `{L : Locale} {consistent : ConsistentLocale L}.

Lemma compareItems_total a b :
  0 < compareItems a b -> compareItems b a <= 0.
Proof.
  unfold compareItems.
  destruct (isGroup a), (isGroup b); cbn; try lia.
  all: intros Hab; apply localeCompare_swap in Hab; lia.
Qed.

Lemma isGroup_sortItem item : isGroup (sortItem item) = isGroup item.
Proof. now destruct item. Qed.

Lemma itemName_sortItem item : itemName (sortItem item) = itemName item.
Proof. now destruct item. Qed.

Lemma compareItems_sortItem a b :
  compareItems (sortItem a) (sortItem b) = compareItems a b.
Proof.
  unfold compareItems. now rewrite !isGroup_sortItem, !itemName_sortItem.
Qed.

(** An array sorted by [compareItems] has its groups first and each tier
    in order of name. *)
Lemma Sorted_levelOrdered items :
  Sorted (fun a b => compareItems a b <= 0) items -> levelOrdered items.
Proof.
  induction 1 as [|item items Hsorted (groups & tokens & -> & Hg & Ht & Sg & St) Hhd].
  - exists [], []. repeat split; constructor.
  - destruct (isGroup item) eqn:Hitem.
    + exists (item :: groups), tokens.
      repeat split; try assumption; [now constructor|].
      constructor; [assumption|].
      destruct groups as [|group groups]; constructor.
      inversion Hhd as [|? ? Hle]; subst.
      apply Forall_cons in Hg as [Hgroup _].
      unfold compareItems in Hle. now rewrite Hitem, Hgroup in Hle.
    + destruct groups as [|group groups].
      * exists [], (item :: tokens). cbn in *.
        repeat split; try assumption; [now constructor|].
        constructor; [assumption|].
        destruct tokens as [|token tokens]; constructor.
        inversion Hhd as [|? ? Hle]; subst.
        apply Forall_cons in Ht as [Htoken _].
        unfold compareItems in Hle. now rewrite Hitem, Htoken in Hle.
      * exfalso. inversion Hhd as [|? ? Hle]; subst.
        apply Forall_cons in Hg as [Hgroup _].
        unfold compareItems in Hle. rewrite Hitem, Hgroup in Hle.
        cbn in Hle. lia.
Qed.

Lemma sortTokensAlphabetically_levelOrdered items :
  levelOrdered (sortTokensAlphabetically items).
Proof.
  apply Sorted_levelOrdered, sort_Sorted, compareItems_total.
Qed.

Lemma sortItem_below item : belowItem levelOrdered (sortItem item).
Proof.
  induction item as [token | name children IH] using Item_nested_ind;
    [exact I|].
  cbn [sortItem]. apply belowItem_Group. split.
  - apply sortTokensAlphabetically_levelOrdered.
  - rewrite sort_Permutation. now apply Forall_map.
Qed.

(** C2. In the result of [sortTokensAlphabetically], the top-level array
    and the children array of every group at every depth have all their
    groups before all their tokens, and in each of the two tiers the names
    do not decrease under [localeCompare]. *)
Theorem sortTokensAlphabetically_sorted (items : list Item) :
  everyLevel levelOrdered (sortTokensAlphabetically items).
Proof.
  split.
  - apply sortTokensAlphabetically_levelOrdered.
  - unfold sortTokensAlphabetically. rewrite sort_Permutation.
    apply Forall_map, Forall_forall. intros item _. apply sortItem_below.
Qed.

Lemma sortItem_idempotent item : sortItem (sortItem item) = sortItem item.
Proof.
  induction item as [token | name children IH] using Item_nested_ind;
    [reflexivity|].
  cbn [sortItem]. f_equal.
  rewrite (sort_map compareItems compareItems sortItem)
    by apply compareItems_sortItem.
  rewrite sort_sort by apply compareItems_total.
  f_equal. rewrite map_map. apply map_ext_Forall. exact IH.
Qed.

(** C7. Sorting a sorted forest changes nothing: applying
    [sortTokensAlphabetically] twice gives the structure that applying it
    once gives. *)
Theorem sortTokensAlphabetically_idempotent (items : list Item) :
  sortTokensAlphabetically (sortTokensAlphabetically items)
  = sortTokensAlphabetically items.
Proof.
  unfold sortTokensAlphabetically.
  rewrite (sort_map compareItems compareItems sortItem)
    by apply compareItems_sortItem.
  rewrite sort_sort by apply compareItems_total.
  f_equal. rewrite map_map. apply map_ext, sortItem_idempotent.
Qed.

End Sorting.

(** ** Export *)

Section Orchestrator.
Context `{L : Locale}.

Lemma find_absent collections id :
  id ∉ map Collection.id collections ->
  List.find (fun c => String.eqb c.(Collection.id) id) collections = None.
Proof.
  induction collections as [|c collections IH]; cbn; [reflexivity|].
  rewrite not_elem_of_cons. intros [Hc Hrest].
  destruct (String.eqb_spec c.(Collection.id) id); [congruence|].
  now apply IH.
Qed.

Lemma find_present collections id :
  id ∈ map Collection.id collections ->
  is_Some (List.find (fun c => String.eqb c.(Collection.id) id) collections).
Proof.
  induction collections as [|c collections IH]; cbn.
  - now intros ?%elem_of_nil.
  - intros [Hc | Hin]%elem_of_cons.
    + rewrite <- Hc, String.eqb_refl. eauto.
    + destruct (String.eqb _ id); eauto.
Qed.

Lemma validateAndGetCollections_unknown figma tokenCollectionId
    primitiveCollectionId :
  tokenCollectionId ∉ map Collection.id (getLocalVariableCollections figma)
  \/ primitiveCollectionId
     ∉ map Collection.id (getLocalVariableCollections figma) ->
  validateAndGetCollections figma tokenCollectionId primitiveCollectionId
  = throw collectionsNotFound.
Proof.
  unfold validateAndGetCollections.
  intros [Habsent | Habsent]; rewrite (find_absent _ _ Habsent);
    [|reflexivity].
  now destruct (List.find _ _).
Qed.

(** C3. When the token collection id or the primitive collection id of the
    configuration is the id of no collection of the document, [exportTokens]
    throws the "Collections not found" error straight after the start
    notification, whatever the variables are and before any of them is
    resolved; no document is posted, neither by [exportTokens] nor by the
    handler that catches the error and shows it. *)
Theorem exportTokens_unknown_collection fuel figma config currentLang :
  config.(ExportConfig.tokenCollectionId)
    ∉ map Collection.id (getLocalVariableCollections figma)
  \/ config.(ExportConfig.primitiveCollectionId)
     ∉ map Collection.id (getLocalVariableCollections figma) ->
  let started := analyzing (translations (configLang config)) in
  exportTokens fuel figma config
  = ([Notify started], Threw collectionsNotFound)
  /\ handleExportRequest fuel figma currentLang config
     = ([Notify started;
         Notify (exportError currentLang ++ collectionsNotFound)],
        Returned tt).
Proof.
  intros Hunknown started.
  assert (Hrun : exportTokens fuel figma config
                 = ([Notify started], Threw collectionsNotFound)).
  { unfold exportTokens.
    rewrite (validateAndGetCollections_unknown _ _ _ Hunknown).
    reflexivity. }
  split; [exact Hrun|].
  unfold handleExportRequest. now rewrite Hrun.
Qed.

Lemma tokensOf_app items items' :
  tokensOf (items ++ items') = (tokensOf items ++ tokensOf items')%list.
Proof. apply flat_map_app. Qed.

(** An insertion adds its token to the tree and nothing else. *)
Lemma tokensOf_insertTokenIntoTree folders : forall rootArray tokenObj,
  tokensOf (insertTokenIntoTree rootArray folders tokenObj)
  ≡ₚ tokenObj :: tokensOf rootArray.
Proof.
  induction folders as [|folderName deeper IH]; intros rootArray tokenObj;
    cbn [insertTokenIntoTree].
  - rewrite tokensOf_app. cbn. now rewrite <- Permutation_cons_append.
  - destruct (findGroup folderName rootArray) as [[i children]|] eqn:Hfind.
    + apply findGroup_Some in Hfind as (earlier & later & -> & <-).
      replace (length earlier) with (length earlier + 0)%nat by lia.
      rewrite insert_app_r. cbn [insert list_insert].
      rewrite !tokensOf_app. cbn.
      fold (tokensOf (insertTokenIntoTree children deeper tokenObj)).
      fold (tokensOf children). fold (tokensOf later).
      rewrite IH. cbn. now rewrite <- Permutation_middle.
    + rewrite tokensOf_app. cbn. rewrite app_nil_r.
      fold (tokensOf (insertTokenIntoTree [] deeper tokenObj)).
      rewrite IH. cbn. now rewrite <- Permutation_cons_append.
Qed.

Lemma flat_map_Permutation_ext {A B} (f g : A -> list B) (l : list A) :
  Forall (fun x => f x ≡ₚ g x) l -> flat_map f l ≡ₚ flat_map g l.
Proof.
  induction 1 as [|x l Hx _ IH]; cbn; [reflexivity|]. now rewrite Hx, IH.
Qed.

Lemma tokensOfItem_sortItem item :
  tokensOfItem (sortItem item) ≡ₚ tokensOfItem item.
Proof.
  induction item as [token | name children IH] using Item_nested_ind;
    [reflexivity|].
  cbn. rewrite (Permutation_flat_map _ (sort_Permutation _ _)).
  rewrite flat_map_concat_map, map_map, <- flat_map_concat_map.
  now apply flat_map_Permutation_ext.
Qed.

(** Sorting moves the tokens of a tree and keeps every one of them. *)
Lemma tokensOf_sortTokensAlphabetically items :
  tokensOf (sortTokensAlphabetically items) ≡ₚ tokensOf items.
Proof.
  unfold tokensOf, sortTokensAlphabetically.
  rewrite (Permutation_flat_map _ (sort_Permutation _ _)).
  rewrite flat_map_concat_map, map_map, <- flat_map_concat_map.
  apply flat_map_Permutation_ext, Forall_forall.
  intros item _. apply tokensOfItem_sortItem.
Qed.

Lemma createTokenObject_path fuel figma variable brands tokenObj :
  createTokenObject fuel figma variable brands = Some tokenObj ->
  tokenObj.(TokenObject.path) = variable.(Var.name).
Proof.
  unfold createTokenObject.
  destruct (resolveBrands _ _ _ _ _); cbn; [|discriminate].
  now intros [= <-].
Qed.

(** The loop inserts one token for every variable of type COLOR, whatever
    its name, and skips the others. *)
Lemma processLoop_paths fuel figma brands variables :
  forall rootArray result,
    processLoop fuel figma variables brands rootArray = Some result ->
    map TokenObject.path (tokensOf result)
    ≡ₚ (map TokenObject.path (tokensOf rootArray)
        ++ map Var.name
             (List.filter
                (fun v => bool_decide (v.(Var.resolvedType) = COLOR))
                variables))%list.
Proof.
  induction variables as [|variable variables IH]; cbn;
    intros rootArray result.
  - intros [= <-]. now rewrite app_nil_r.
  - destruct (decide (variable.(Var.resolvedType) = COLOR)) as [Hcolor | Hother].
    + rewrite (bool_decide_eq_true_2 _ Hcolor).
      destruct (createTokenObject _ _ _ _) as [tokenObj|] eqn:Htoken;
        cbn; [|discriminate].
      intros Hloop%IH. rewrite Hloop, tokensOf_insertTokenIntoTree. cbn.
      rewrite (createTokenObject_path _ _ _ _ _ Htoken).
      now rewrite <- Permutation_middle.
    + rewrite (bool_decide_eq_false_2 _ Hother). apply IH.
Qed.

(** Enough fuel: when every alias leads to a variable of smaller rank,
    a resolution returns as soon as the fuel exceeds the rank. *)
Lemma property_elem_of {V} key (object : list (string * V)) value :
  property key object = Some value -> (key, value) ∈ object.
Proof.
  induction object as [|[k v] object IH]; cbn; [discriminate|].
  destruct (String.eqb_spec k key) as [-> | _].
  - intros [= ->]. apply list_elem_of_here.
  - intros Hrest. apply list_elem_of_further, IH, Hrest.
Qed.

Lemma aliasesDescendCheck_sound figma rank :
  aliasesDescendCheck figma rank = true -> aliasesDescend figma rank.
Proof.
  unfold aliasesDescendCheck. rewrite forallb_forall.
  intros Hcheck variable modeId aliasId target Hin Hvalue Htarget.
  apply list_elem_of_In, Hcheck in Hin. rewrite forallb_forall in Hin.
  apply property_elem_of, list_elem_of_In, Hin in Hvalue. cbn in Hvalue.
  rewrite Htarget in Hvalue. now apply Nat.ltb_lt.
Qed.

Lemma target_in_document figma aliasId target :
  getVariableById figma !! aliasId = Some target ->
  target ∈ documentVariables figma.
Proof.
  intros Htarget. apply elem_of_app. right.
  apply list_elem_of_fmap. exists (aliasId, target).
  split; [reflexivity|]. now apply elem_of_map_to_list.
Qed.

Lemma resolveColor_returns figma rank :
  aliasesDescend figma rank ->
  forall fuel variable modeId primitiveModeId brandModeType,
    variable ∈ documentVariables figma ->
    (rank variable <= fuel)%nat ->
    is_Some (resolveColor (S fuel) figma variable modeId primitiveModeId
               brandModeType).
Proof.
  intros Hrank. induction fuel as [|fuel IH];
    intros variable modeId primitiveModeId brandModeType Hdoc Hfuel;
    cbn [resolveColor].
  all: destruct (property modeId _) as [[| | | |aliasId]|] eqn:Hvalue; eauto.
  all: destruct (getVariableById figma !! aliasId) as [primitiveVar|]
         eqn:Htarget; eauto.
  all: pose proof (Hrank _ _ _ _ Hdoc Hvalue Htarget) as Hless.
  all: destruct (resolveVariableValue primitiveVar primitiveModeId None);
    eauto.
  all: destruct brandModeType as [modeType|]; eauto.
  all: destruct (findMatchingMode figma primitiveVar modeType)
         as [matchingMode|]; eauto.
  all: destruct (resolveVariableValue primitiveVar _ (Some _)); eauto.
  all: destruct (isVariableAlias _); eauto.
  - lia.
  - destruct (IH primitiveVar matchingMode.(Mode.modeId)
                matchingMode.(Mode.modeId) (Some modeType)) as [nested Hnested];
      [eapply target_in_document, Htarget | lia |].
    cbn [resolveColor] in Hnested. rewrite Hnested. cbn. eauto.
Qed.

Lemma createTokenObject_returns figma rank fuel variable brands :
  aliasesDescend figma rank ->
  variable ∈ documentVariables figma -> (rank variable <= fuel)%nat ->
  is_Some (createTokenObject (S fuel) figma variable brands).
Proof.
  intros Hrank Hdoc Hfuel. unfold createTokenObject.
  assert (Hmode : forall binding modeType,
             is_Some (resolveBrandMode (S fuel) figma variable binding
                        modeType)).
  { intros [binding|] modeType; unfold resolveBrandMode; eauto.
    destruct (String.eqb _ ""); eauto.
    destruct (resolveColor_returns figma rank Hrank fuel variable
                binding.(Binding.modeId) binding.(Binding.primitiveModeId)
                (Some modeType) Hdoc Hfuel) as [res ->].
    cbn. eauto. }
  assert (Hbrands : forall modes,
             is_Some (resolveBrands (S fuel) figma variable brands modes)).
  { induction brands as [|brand brands IH]; intros modes;
      cbn [resolveBrands]; eauto.
    unfold resolveBrandColors.
    destruct (Hmode brand.(Brand.light) light) as [lightResult ->].
    destruct (Hmode brand.(Brand.dark) dark) as [darkResult ->].
    cbn. apply IH. }
  destruct (Hbrands ∅) as [modes ->]. cbn. eauto.
Qed.

Lemma processLoop_returns figma rank fuel brands variables :
  aliasesDescend figma rank ->
  Forall (fun variable => variable ∈ documentVariables figma
                          /\ (rank variable <= fuel)%nat) variables ->
  forall rootArray,
    is_Some (processLoop (S fuel) figma variables brands rootArray).
Proof.
  intros Hrank. induction 1 as [|variable variables [Hdoc Hfuel] _ IH];
    intros rootArray; cbn [processLoop]; eauto.
  destruct (decide _); [|apply IH].
  destruct (createTokenObject_returns figma rank fuel variable brands
              Hrank Hdoc Hfuel) as [tokenObj ->].
  cbn. apply IH.
Qed.

(** An export of a document whose aliases descend completes: with both
    collections present it posts a document. *)
Lemma exportTokens_completes figma rank fuel config :
  aliasesDescend figma rank ->
  Forall (fun variable => (rank variable <= fuel)%nat)
    (getLocalVariables figma) ->
  config.(ExportConfig.tokenCollectionId)
    ∈ map Collection.id (getLocalVariableCollections figma) ->
  config.(ExportConfig.primitiveCollectionId)
    ∈ map Collection.id (getLocalVariableCollections figma) ->
  exists effects, exportTokens (S fuel) figma config = (effects, Returned tt).
Proof.
  intros Hrank Hfuel Htokens Hprimitives.
  unfold exportTokens, validateAndGetCollections.
  destruct (find_present _ _ Hprimitives) as [primitives ->].
  destruct (find_present _ _ Htokens) as [semantic ->].
  cbn. unfold processVariables.
  match goal with
  | |- context [processLoop ?f ?fg ?vs ?bs ?root] =>
      assert (Hloop : is_Some (processLoop f fg vs bs root))
  end.
  { apply (processLoop_returns figma rank); [exact Hrank|].
    apply Forall_forall. intros variable [Hin _]%list_elem_of_In%filter_In.
    apply list_elem_of_In in Hin. split.
    - apply elem_of_app. now left.
    - rewrite Forall_forall in Hfuel. now apply Hfuel. }
  destruct Hloop as [rootArray ->]. cbn. eauto.
Qed.

Lemma filter_filter_and {A} (f g : A -> bool) (l : list A) :
  List.filter g (List.filter f l) = List.filter (fun x => f x && g x) l.
Proof.
  induction l as [|x l IH]; cbn; [reflexivity|].
  destruct (f x); cbn; [|exact IH]. destruct (g x); now rewrite IH.
Qed.

(** C10. An export that completes posts one document, and the tokens of
    its tree are those of the variables of the token collection whose type
    is COLOR, one token of path [name] for each such variable: the name of
    a variable plays no part in the selection, so a variable whose name
    starts with an underscore or a hash sign is exported like any other. *)
Theorem exportTokens_exports_every_color_variable fuel figma config effects :
  exportTokens fuel figma config = (effects, Returned tt) ->
  exists data,
    effects
    = [ Notify (analyzing (translations (configLang config)));
        PostDownloadJson data;
        Notify (exportFinished (translations (configLang config))) ]
    /\ map TokenObject.path (tokensOf (tokens data))
       ≡ₚ map Var.name
            (colorVariables figma config.(ExportConfig.tokenCollectionId)).
Proof.
  unfold exportTokens, validateAndGetCollections.
  destruct (List.find _ _) as [primitives|]; [|discriminate].
  destruct (List.find _ _) as [semantic|]; [|discriminate].
  cbn. unfold processVariables.
  destruct (processLoop _ _ _ _ _) as [rootArray|] eqn:Hloop;
    cbn; [|discriminate].
  intros [= <-]. eexists. split; [reflexivity|]. cbn [tokens].
  rewrite tokensOf_sortTokensAlphabetically.
  apply processLoop_paths in Hloop. rewrite Hloop. cbn.
  unfold colorVariables. now rewrite filter_filter_and.
Qed.

End Orchestrator.

(** ** Colour encoding *)

Section Binary64.

Lemma digits2_pos_bounds p :
  2 ^ (Z.pos (digits2_pos p) - 1) <= Z.pos p < 2 ^ Z.pos (digits2_pos p).
Proof.
  assert (Hsize : digits2_pos p = Pos.size p)
    by (induction p; cbn; congruence).
  rewrite Hsize.
  pose proof (Pos2Z.pos_le_pos _ _ (Pos.size_le p)) as Hle.
  pose proof (Pos2Z.pos_lt_pos _ _ (Pos.size_gt p)) as Hgt.
  rewrite Pos2Z.inj_pow in Hle, Hgt.
  replace (Z.pos (Pos.size p)) with (Z.succ (Z.pos (Pos.size p) - 1)) in Hle
    by lia.
  rewrite Z.pow_succ_r in Hle by lia. lia.
Qed.

Lemma shr_1_m mrs : 0 <= shr_m mrs -> shr_m (shr_1 mrs) = shr_m mrs / 2.
Proof.
  destruct mrs as [[|[p|p|]|p] r s]; cbn [shr_m shr_1]; intros Hm.
  - reflexivity.
  - apply Z.div_unique with 1; lia.
  - apply Z.div_unique with 0; lia.
  - reflexivity.
  - lia.
Qed.

Lemma iter_shr_1_m p : forall mrs,
  0 <= shr_m mrs ->
  shr_m (SpecFloat.iter_pos shr_1 p mrs) = shr_m mrs / 2 ^ Z.pos p.
Proof.
  induction p as [p IH | p IH |]; intros mrs Hm; cbn [SpecFloat.iter_pos].
  - assert (H1 : 0 <= shr_m (shr_1 mrs))
      by (rewrite shr_1_m by assumption; apply Z.div_pos; lia).
    assert (H2 : 0 <= shr_m (SpecFloat.iter_pos shr_1 p (shr_1 mrs)))
      by (rewrite IH by assumption; apply Z.div_pos; lia).
    rewrite IH, IH, shr_1_m by assumption.
    rewrite !Z.div_div by lia. f_equal.
    replace (Z.pos p~1) with (1 + Z.pos p + Z.pos p) by lia.
    rewrite !Z.pow_add_r by lia. change (2 ^ 1) with 2. ring.
  - assert (H2 : 0 <= shr_m (SpecFloat.iter_pos shr_1 p mrs))
      by (rewrite IH by assumption; apply Z.div_pos; lia).
    rewrite IH, IH by assumption.
    rewrite !Z.div_div by lia. f_equal.
    replace (Z.pos p~0) with (Z.pos p + Z.pos p) by lia.
    rewrite Z.pow_add_r by lia. ring.
  - rewrite shr_1_m by assumption. reflexivity.
Qed.

Lemma shr_fexp_spec m e l mrs' e' :
  0 <= m ->
  shr_fexp prec emax m e l = (mrs', e') ->
  e' = Z.max e (fexp prec emax (Zdigits2 m + e))
  /\ shr_m mrs' = m / 2 ^ (e' - e).
Proof.
  intros Hm. unfold shr_fexp, shr.
  assert (Hloc : shr_m (shr_record_of_loc m l) = m)
    by (destruct l as [|[]]; reflexivity).
  destruct (fexp prec emax (Zdigits2 m + e) - e) as [|p|p] eqn:Hshift;
    intros [= <- <-].
  - split; [lia|]. rewrite Z.sub_diag, Z.div_1_r. exact Hloc.
  - split; [lia|]. rewrite iter_shr_1_m by lia. rewrite Hloc.
    do 2 f_equal. lia.
  - split; [lia|]. rewrite Z.sub_diag, Z.div_1_r. exact Hloc.
Qed.

Lemma round_nearest_even_bounds q l :
  q <= round_nearest_even q l <= q + 1.
Proof.
  destruct l as [|[]]; cbn [round_nearest_even]; try lia.
  destruct (Z.even q); lia.
Qed.

Lemma Zdigits2_bound m k :
  0 <= k -> 0 <= m < 2 ^ k -> Zdigits2 m <= k.
Proof.
  intros Hk [Hm Hlt]. destruct m as [|p|p]; cbn [Zdigits2]; try lia.
  pose proof (digits2_pos_bounds p) as [Hlow _].
  apply Z.nlt_ge. intros Hbig.
  assert (2 ^ k <= 2 ^ (Z.pos (digits2_pos p) - 1))
    by (apply Z.pow_le_mono_r; lia).
  lia.
Qed.

(** Rounding a positive value below 255 to binary64 gives zero or a
    positive value that is at most 255. *)
Lemma binary_round_aux_below_255 M E :
  E <= 0 ->
  Z.pos M < 255 * 2 ^ (- E) ->
  match binary_round_aux prec emax false (Z.pos M) E loc_Exact with
  | S754_zero _ => True
  | S754_finite false m e => e <= 0 /\ Z.pos m <= 255 * 2 ^ (- e)
  | _ => False
  end.
Proof.
  intros HE HM. unfold binary_round_aux.
  destruct (shr_fexp prec emax (Z.pos M) E loc_Exact) as [mrs1 e1] eqn:H1.
  apply shr_fexp_spec in H1 as [He1 Hq]; [|lia].
  set (q := shr_m mrs1) in *.
  set (m1 := round_nearest_even q (loc_of_shr_record mrs1)).
  pose proof (round_nearest_even_bounds q (loc_of_shr_record mrs1)) as Hm1.
  fold m1 in Hm1.
  assert (HM8 : Z.pos M < 2 ^ (8 - E)).
  { replace (8 - E) with (8 + - E) by lia. rewrite Z.pow_add_r by lia.
    change (2 ^ 8) with 256. pose proof (Z.pow_pos_nonneg 2 (- E)). lia. }
  assert (Hd : Zdigits2 (Z.pos M) <= 8 - E)
    by (apply Zdigits2_bound; lia).
  assert (He1' : E <= e1 <= 0).
  { unfold fexp, emin, prec, emax in He1. lia. }
  assert (Hq0 : 0 <= q)
    by (rewrite Hq; apply Z.div_pos; [lia | apply Z.pow_pos_nonneg; lia]).
  assert (Hq1 : q < 255 * 2 ^ (- e1)).
  { rewrite Hq.
    apply Z.div_lt_upper_bound; [apply Z.pow_pos_nonneg; lia|].
    replace (2 ^ (e1 - E) * (255 * 2 ^ (- e1)))
      with (255 * (2 ^ (e1 - E) * 2 ^ (- e1))) by ring.
    rewrite <- Z.pow_add_r by lia.
    replace (e1 - E + - e1) with (- E) by lia. exact HM. }
  destruct (shr_fexp prec emax m1 e1 loc_Exact) as [mrs2 e2] eqn:H2.
  apply shr_fexp_spec in H2 as [He2 Hm2]; [|lia].
  assert (Hm18 : m1 < 2 ^ (8 - e1)).
  { replace (8 - e1) with (8 + - e1) by lia. rewrite Z.pow_add_r by lia.
    change (2 ^ 8) with 256. pose proof (Z.pow_pos_nonneg 2 (- e1)). lia. }
  assert (Hd1 : Zdigits2 m1 <= 8 - e1)
    by (apply Zdigits2_bound; lia).
  assert (He2' : e1 <= e2 <= 0).
  { unfold fexp, emin, prec, emax in He2. lia. }
  assert (Hm2' : 0 <= shr_m mrs2 <= 255 * 2 ^ (- e2)).
  { assert (Hpow : 0 < 2 ^ (e2 - e1)) by (apply Z.pow_pos_nonneg; lia).
    rewrite Hm2. split; [apply Z.div_pos; lia|].
    apply Z.div_le_upper_bound; [lia|].
    replace (2 ^ (e2 - e1) * (255 * 2 ^ (- e2)))
      with (255 * (2 ^ (e2 - e1) * 2 ^ (- e2))) by ring.
    rewrite <- Z.pow_add_r by lia.
    replace (e2 - e1 + - e2) with (- e1) by lia. lia. }
  destruct (shr_m mrs2) as [|m|m]; [exact I| |lia].
  assert (Hfits : (e2 <=? emax - prec) = true)
    by (apply Z.leb_le; unfold emax, prec; lia).
  rewrite Hfits. split; [lia|]. apply Hm2'.
Qed.


(** A channel between 0 and 1, scaled by 255 and rounded, is an integer
    between 0 and 255. *)
Lemma Math_round_scaled v :
  (0 <=? v)%float = true -> (v <=? 1)%float = true ->
  exists n, JS.Math_round (v * 255) = JS.Int n /\ 0 <= n <= 255.
Proof.
  rewrite !leb_spec. unfold JS.Math_round. rewrite mul_spec.
  pose proof (Prim2SF_valid v) as Hvalid.
  replace (Prim2SF 0) with (S754_zero false) by (vm_compute; reflexivity).
  replace (Prim2SF 1) with (S754_finite false 4503599627370496 (-52))
    by (vm_compute; reflexivity).
  replace (Prim2SF 255) with (S754_finite false 8972014882652160 (-45))
    by (vm_compute; reflexivity).
  destruct (Prim2SF v) as [s | s | | s m e]; cbn [SFleb SFcompare].
  - intros _ _. exists 0. split; [reflexivity | lia].
  - destruct s; discriminate.
  - discriminate.
  - destruct s; [discriminate|]. intros _.
    unfold valid_binary, bounded, canonical_mantissa in Hvalid.
    apply andb_true_iff in Hvalid as [Hcanonical _].
    apply Z.eqb_eq in Hcanonical.
    pose proof (digits2_pos_bounds m) as [Hlow Hhigh].
    destruct (Z.compare_spec e (-52)) as [-> | He | He]; [| |discriminate].
    + intros Hle.
      assert (Hm : m = 4503599627370496%positive).
      { unfold fexp, emin, prec, emax in Hcanonical.
        assert (Hdigits : Z.pos (digits2_pos m) = 53) by lia.
        rewrite Hdigits in Hlow. change (2 ^ (53 - 1)) with 4503599627370496 in Hlow.
        destruct (Pos.compare_cont Eq m 4503599627370496) eqn:Hcmp;
          [now apply Pos.compare_eq in Hcmp | | discriminate].
        apply Pos2Z.pos_lt_pos in Hcmp. lia. }
      subst m. exists 255. split; [vm_compute; reflexivity | lia].
    + intros _.
      assert (Hm : Z.pos m < 2 ^ 53).
      { unfold fexp, emin, prec, emax in Hcanonical.
        assert (Hdigits : Z.pos (digits2_pos m) <= 53) by lia.
        eapply Z.lt_le_trans; [exact Hhigh|].
        apply Z.pow_le_mono_r; lia. }
      unfold SF64mul, SFmul. cbn [xorb].
      assert (Hpow : 2 ^ 53 <= 2 ^ (- e)) by (apply Z.pow_le_mono_r; lia).
      assert (HM : Z.pos (m * 8972014882652160)
                   < 255 * 2 ^ (- (e + -45))).
      { rewrite Pos2Z.inj_mul.
        change (Z.pos 8972014882652160) with (255 * 2 ^ 45).
        replace (- (e + -45)) with (- e + 45) by lia.
        rewrite Z.pow_add_r by lia. nia. }
      pose proof (binary_round_aux_below_255 _ (e + -45) ltac:(lia) HM)
        as Hround.
      destruct (binary_round_aux prec emax false
                  (Z.pos (m * 8972014882652160)) (e + -45) loc_Exact)
        as [s' | s' | | [] m' e']; try contradiction.
      * exists 0. split; [reflexivity | lia].
      * destruct Hround as [He' Hm'].
        assert (Hpos : 0 < 2 ^ (- e')) by (apply Z.pow_pos_nonneg; lia).
        destruct (Z.leb_spec 0 e') as [Hzero | Hneg].
        -- assert (e' = 0) as -> by lia. exists (Z.pos m').
           split; [f_equal; cbn; lia | cbn in Hm'; lia].
        -- eexists. split; [reflexivity|].
           assert (Htwice : 2 ^ (1 - e') = 2 * 2 ^ (- e')).
           { replace (1 - e') with (1 + - e') by lia.
             now rewrite Z.pow_add_r by lia. }
           rewrite Htwice. split.
           ++ apply Z.div_pos; lia.
           ++ apply Z.lt_succ_r, Z.div_lt_upper_bound; lia.
Qed.


End Binary64.

Section Encoding.

Lemma toUpperCase_app s t :
  JS.toUpperCase (s ++ t) = JS.toUpperCase s ++ JS.toUpperCase t.
Proof. induction s as [|c s IH]; simpl; [reflexivity | now rewrite IH]. Qed.

Lemma append_empty s : s ++ "" = s.
Proof.
  induction s as [|c s IH]; [reflexivity|].
  change (String c (s ++ "") = String c s). now rewrite IH.
Qed.

Lemma padded_table :
  forallb (fun n => String.eqb (JS.toUpperCase (padded n)) (twoHexDigits n))
    (map Z.of_nat (seq 0 256)) = true.
Proof. vm_compute. reflexivity. Qed.

Lemma padded_twoHexDigits n :
  0 <= n <= 255 -> JS.toUpperCase (padded n) = twoHexDigits n.
Proof.
  intros Hn. apply String.eqb_eq.
  pose proof padded_table as Htable.
  rewrite forallb_forall in Htable. apply Htable.
  apply in_map_iff. exists (Z.to_nat n). split; [lia|].
  apply in_seq. lia.
Qed.

Lemma toHex_channelByte v :
  unitInterval v ->
  0 <= channelByte v <= 255
  /\ JS.toUpperCase (toHex v) = twoHexDigits (channelByte v).
Proof.
  intros [Hlow Hhigh].
  destruct (Math_round_scaled v Hlow Hhigh) as (n & Hround & Hn).
  unfold channelByte, toHex. rewrite Hround. split; [exact Hn|].
  now apply padded_twoHexDigits.
Qed.

(** C8. For a colour whose channels lie between 0 and 1, every channel
    scaled by 255 and rounded is a byte, and [rgbaToHex] is a hash sign,
    then the red, green and blue bytes in this order, each as two
    upper-case hexadecimal digits, then the alpha byte in the same form
    exactly when alpha is defined and below 1. Opaque red gives "#FF0000"
    and red of alpha one half gives "#FF000080". *)
Theorem rgbaToHex_format (c : RGBA) :
  channelsInUnitInterval c ->
  (0 <= channelByte (r c) <= 255
   /\ 0 <= channelByte (g c) <= 255
   /\ 0 <= channelByte (b c) <= 255)
  /\ rgbaToHex c
     = "#" ++ twoHexDigits (channelByte (r c))
           ++ twoHexDigits (channelByte (g c))
           ++ twoHexDigits (channelByte (b c))
           ++ match a c with
              | Some alpha =>
                  if (alpha <? 1)%float
                  then twoHexDigits (channelByte alpha)
                  else ""
              | None => ""
              end
  /\ rgbaToHex {| r := 1; g := 0; b := 0; a := Some 1%float |} = "#FF0000"
  /\ rgbaToHex {| r := 1; g := 0; b := 0; a := Some 0.5%float |}
     = "#FF000080".
Proof.
  intros (Hr & Hg & Hb & Ha).
  destruct (toHex_channelByte _ Hr) as [Hred Hredhex].
  destruct (toHex_channelByte _ Hg) as [Hgreen Hgreenhex].
  destruct (toHex_channelByte _ Hb) as [Hblue Hbluehex].
  split; [auto|]. split; [|split; vm_compute; reflexivity].
  unfold rgbaToHex.
  destruct (a c) as [alpha|].
  - destruct (toHex_channelByte _ Ha) as [_ Halphahex].
    destruct (alpha <? 1)%float;
      rewrite !toUpperCase_app, ?Halphahex, Hredhex, Hgreenhex, Hbluehex;
      [reflexivity|].
    now rewrite append_empty.
  - rewrite !toUpperCase_app, Hredhex, Hgreenhex, Hbluehex.
    now rewrite append_empty.
Qed.

End Encoding.

(** ** The sample document, run *)

Example rgbaToHex_red :
  rgbaToHex {| r := 1; g := 0; b := 0; a := Some 1%float |} = "#FF0000".
Proof. vm_compute. reflexivity. Qed.

Example rgbaToHex_red_half :
  rgbaToHex {| r := 1; g := 0; b := 0; a := Some 0.5%float |} = "#FF000080".
Proof. vm_compute. reflexivity. Qed.

Lemma Sample_consistent : ConsistentLocale Sample.locale.
Proof.
  split; cbn; unfold Sample.collate.
  - intros a b. rewrite (String_as_OT.cmp_antisym b a).
    destruct (String_as_OT.cmp a b); cbn; lia.
  - intros a b c.
    destruct (String_as_OT.cmp a b) eqn:Hab; [| |lia];
      destruct (String_as_OT.cmp b c) eqn:Hbc; try lia; intros _ _.
    + apply String_as_OT.cmp_eq in Hab as ->. now rewrite Hbc.
    + apply String_as_OT.cmp_eq in Hab as ->. now rewrite Hbc.
    + apply String_as_OT.cmp_eq in Hbc as <-. now rewrite Hab.
    + apply String_as_OT.cmp_lt in Hab, Hbc.
      pose proof (String_as_OT.lt_trans _ _ _ Hab Hbc) as Hac.
      apply String_as_OT.cmp_lt in Hac. now rewrite Hac.
Qed.

Lemma resolveColor_recurses_through_alias_witness :
  @resolveColor Sample.locale 2 Sample.figma Sample.backgroundPrimary
    "t:2" "p:1" (Some dark)
  = Some {| hex := "#000000";
            primitiveName := "UI/Color/Accent → UI/Color/Gray/50" |}.
Proof.
  etransitivity.
  - apply (@resolveColor_recurses_through_alias Sample.locale 1 Sample.figma
             Sample.backgroundPrimary "t:2" "p:1" dark "v:accent" Sample.accent
             {| Mode.modeId := "p:2"; Mode.name := "Legacy Dark" |} "v:gray50").
    + reflexivity.
    + vm_compute. reflexivity.
    + left. reflexivity.
    + vm_compute. reflexivity.
    + reflexivity.
  - vm_compute. reflexivity.
Defined.

Lemma resolveColor_first_matching_mode_witness :
  @resolveColor Sample.locale 1 Sample.figma Sample.borderPrimary
    "t:1" "p:9" (Some dark)
  = Some {| hex := "#000000";
            primitiveName := "UI/Color/Gray/50 (Legacy Dark)" |}.
Proof.
  etransitivity.
  - apply (@resolveColor_first_matching_mode Sample.locale 0 Sample.figma
             Sample.borderPrimary "t:1" "p:9" dark "v:gray50" Sample.gray50
             Sample.primitives
             [ {| Mode.modeId := "p:1"; Mode.name := "Legacy Light" |} ]
             {| Mode.modeId := "p:2"; Mode.name := "Legacy Dark" |}
             [ {| Mode.modeId := "p:3"; Mode.name := "NewBrand Dark" |} ]
             {| r := 0; g := 0; b := 0; a := Some 1%float |}).
    + reflexivity.
    + vm_compute. reflexivity.
    + reflexivity.
    + discriminate.
    + reflexivity.
    + reflexivity.
    + repeat constructor.
    + reflexivity.
    + reflexivity.
  - vm_compute. reflexivity.
Defined.

(** The collection of the sample has a third mode, "NewBrand Dark", whose
    name contains "dark" and at which the primitive holds a raw colour; the
    search stops at "Legacy Dark", the first mode whose name contains "dark",
    finds no value there, and the result is the first available mode of the
    primitive, marked "fallback". *)
Lemma resolveColor_any_matching_mode_counterexample :
  property "t:2" Sample.borderPrimary.(Var.valuesByMode)
  = Some (VAlias "v:brand700")
  /\ getVariableById Sample.figma !! "v:brand700" = Some Sample.brand700
  /\ property "p:2" Sample.brand700.(Var.valuesByMode) = None
  /\ getVariableCollectionById Sample.figma
       Sample.brand700.(Var.variableCollectionId)
     = Resolves (Some Sample.primitives)
  /\ {| Mode.modeId := "p:3"; Mode.name := "NewBrand Dark" |}
     ∈ Sample.primitives.(Collection.modes)
  /\ JS.includes (@toLowerCase Sample.locale "NewBrand Dark")
       (brandModeTypeString dark) = true
  /\ property "p:3" Sample.brand700.(Var.valuesByMode)
     = Some (Sample.rgb 1 0 0)
  /\ rgbaToHex {| r := 1; g := 0; b := 0; a := Some 1%float |} = "#FF0000"
  /\ @resolveColor Sample.locale 1 Sample.figma Sample.borderPrimary
       "t:2" "p:2" (Some dark)
     = Some {| hex := "#FFFFFF";
               primitiveName := "UI/Color/Brand/700 (fallback)" |}
  /\ @resolveColor Sample.locale 1 Sample.figma Sample.borderPrimary
       "t:2" "p:2" (Some dark)
     <> Some {| hex := "#FF0000";
                primitiveName := "UI/Color/Brand/700 (NewBrand Dark)" |}.
Proof.
  repeat split; try (vm_compute; reflexivity).
  - set_solver.
  - vm_compute. discriminate.
Qed.

Lemma resolveColor_unresolved_alias_witness :
  @resolveColor Sample.locale 1 Sample.figma Sample.privateToken
    "t:2" "p:2" (Some dark)
  = Some {| hex := "#FF00FF"; primitiveName := "Unresolved" |}.
Proof.
  apply (@resolveColor_unresolved_alias Sample.locale 0 Sample.figma
           Sample.privateToken "t:2" "p:2" (Some dark) "v:missing").
  - reflexivity.
  - vm_compute. reflexivity.
Defined.

Lemma resolveColor_missing_mode_is_black_witness :
  @resolveColor Sample.locale 1 Sample.figma Sample.borderPrimary
    "t:7" "p:1" (Some light)
  = Some {| hex := "#000000"; primitiveName := "Raw" |}
  /\ @resolveColor Sample.locale 1 Sample.figma Sample.spacing
       "t:1" "p:1" (Some light)
     = Some {| hex := "#000000"; primitiveName := "Raw" |}.
Proof.
  split.
  - apply (@resolveColor_missing_mode_is_black Sample.locale 0 Sample.figma
             Sample.borderPrimary "t:7" "p:1" (Some light)).
    exact I.
  - apply (@resolveColor_missing_mode_is_black Sample.locale 0 Sample.figma
             Sample.spacing "t:1" "p:1" (Some light)).
    exact I.
Defined.

Lemma sortTokensAlphabetically_sorted_witness :
  everyLevel (@levelOrdered Sample.locale)
    (@sortTokensAlphabetically Sample.locale Sample.unsorted).
Proof.
  apply (@sortTokensAlphabetically_sorted Sample.locale Sample_consistent).
Defined.

Lemma sortTokensAlphabetically_idempotent_witness :
  @sortTokensAlphabetically Sample.locale
    (@sortTokensAlphabetically Sample.locale Sample.unsorted)
  = @sortTokensAlphabetically Sample.locale Sample.unsorted.
Proof.
  apply (@sortTokensAlphabetically_idempotent Sample.locale Sample_consistent).
Defined.

Example sortTokensAlphabetically_sample :
  @sortTokensAlphabetically Sample.locale Sample.unsorted
  = [ Group "Border" [];
      Group "Text"
        [ Group "Link" [];
          Token (Sample.token "base"); Token (Sample.token "muted") ];
      Token (Sample.token "amber"); Token (Sample.token "zinc") ].
Proof. vm_compute. reflexivity. Qed.

Example parseVariablePath_numeric :
  @parseVariablePath Sample.locale "UI/Color/Gray/50"
  = {| folders := ["UI"; "Color"; "Gray"]; filename := "gray-50" |}.
Proof. vm_compute. reflexivity. Qed.

Example parseVariablePath_spaces :
  @parseVariablePath Sample.locale "Brand Colors/Light Blue"
  = {| folders := ["BrandColors"]; filename := "light-blue" |}.
Proof. vm_compute. reflexivity. Qed.

Example insertAll_sample :
  insertAll Sample.calls
  = [ Group "Colors"
        [ Group "Border" [ Token (Sample.token "primary") ];
          Group "Background" [ Token (Sample.token "primary") ] ];
      Token (Sample.token "loose") ].
Proof. vm_compute. reflexivity. Qed.

Lemma exportTokens_unknown_collection_witness :
  @exportTokens Sample.locale 3 Sample.figma Sample.unknownConfig
  = ([Notify "⏳ Analyse en cours..."], Threw collectionsNotFound)
  /\ @handleExportRequest Sample.locale 3 Sample.figma "en"
       Sample.unknownConfig
     = ([Notify "⏳ Analyse en cours...";
         Notify ("❌ Export Error: " ++ collectionsNotFound)],
        Returned tt).
Proof.
  apply (@exportTokens_unknown_collection Sample.locale 3 Sample.figma
           Sample.unknownConfig "en").
  left. apply (bool_decide_unpack _). vm_compute. exact I.
Defined.

Lemma exportTokens_exports_every_color_variable_witness :
  exists data,
    (@exportTokens Sample.locale 3 Sample.figma Sample.config).1
    = [ Notify "⏳ Analysing..."; PostDownloadJson data;
        Notify "✅ Export finished!" ]
    /\ map TokenObject.path (tokensOf (tokens data))
       ≡ₚ [ "Colors/Border/Primary"; "_private/#draft";
            "Colors/Background/Primary" ].
Proof.
  apply (@exportTokens_exports_every_color_variable Sample.locale 3
           Sample.figma Sample.config).
  vm_compute. reflexivity.
Defined.

Lemma rgbaToHex_format_witness :
  rgbaToHex {| r := 0.25; g := 0.5; b := 1; a := Some 0.75%float |}
  = "#4080FFBF".
Proof.
  etransitivity.
  - apply (rgbaToHex_format
             {| r := 0.25; g := 0.5; b := 1; a := Some 0.75%float |}).
    repeat split; reflexivity.
  - vm_compute. reflexivity.
Defined.

Example exportTokens_completes_sample :
  exists effects,
    @exportTokens Sample.locale 3 Sample.figma Sample.config
    = (effects, Returned tt).
Proof.
  apply (@exportTokens_completes Sample.locale Sample.figma Sample.rank).
  - apply aliasesDescendCheck_sound. vm_compute. reflexivity.
  - cbn [getLocalVariables Sample.figma]. unfold Sample.allVariables.
    repeat (apply Forall_cons; split; [vm_compute; lia|]). constructor.
  - apply (bool_decide_unpack _). vm_compute. exact I.
  - apply (bool_decide_unpack _). vm_compute. exact I.
Qed.

(** * Further properties *)

Set Warnings "-clear-no-such-hyp".

(** ** Names and paths *)

Section Paths.
Context `{L : Locale}.

Lemma empty_append s : "" ++ s = s.
Proof. reflexivity. Qed.

Lemma String_append c s t : String c s ++ t = String c (s ++ t).
Proof. reflexivity. Qed.

Lemma stringForall_app p s t :
  stringForall p (s ++ t) = stringForall p s && stringForall p t.
Proof.
  induction s as [|c s IH]; [reflexivity|].
  rewrite String_append. cbn. now rewrite IH, andb_assoc.
Qed.

Ltac white_case :=
  cbn -[String.length Nat.eqb Nat.leb nat_of_ascii];
  repeat match goal with
    | |- context [match ?x with _ => _ end] => destruct x
    end;
  try discriminate; intros [= <-]; cbn [String.length]; lia.

Lemma whiteSpace_shorter s rest :
  JS.whiteSpace s = Some rest ->
  (String.length rest < String.length s)%nat.
Proof.
  destruct s as [|c s]; [discriminate|].
  unfold JS.whiteSpace. cbn zeta. generalize (nat_of_ascii c) as n. intros n.
  destruct ((9 <=? n) && (n <=? 13) || (n =? 32))%nat;
    [intros [= <-]; cbn; lia|].
  do 240 (destruct n as [|n]; [white_case|]).
  white_case.
Qed.

Lemma whiteSpace_ascii c rest :
  asciiWhiteSpace c = true -> JS.whiteSpace (String c rest) = Some rest.
Proof. unfold asciiWhiteSpace, JS.whiteSpace. cbn zeta. now intros ->. Qed.

Lemma replaceSpaces_no_space fuel : forall inRun s,
  (String.length s < fuel)%nat ->
  stringForall (fun c => negb (asciiWhiteSpace c))
    (JS.replaceSpaces fuel inRun "" s) = true.
Proof.
  induction fuel as [|fuel IH]; intros inRun s Hfuel; [lia|].
  cbn [JS.replaceSpaces].
  destruct (JS.whiteSpace s) as [rest|] eqn:Hspace.
  - apply whiteSpace_shorter in Hspace.
    destruct inRun; rewrite empty_append; apply IH; lia.
  - destruct s as [|c s]; [reflexivity|]. cbn [stringForall].
    destruct (asciiWhiteSpace c) eqn:Hc.
    + now rewrite (whiteSpace_ascii c s Hc) in Hspace.
    + cbn. apply IH. cbn in Hfuel. lia.
Qed.

Lemma replaceSlashes_clean s :
  stringForall (fun c => negb (asciiWhiteSpace c)) s = true ->
  cleanFolderName (JS.replaceSlashes "" s) = true.
Proof.
  unfold cleanFolderName.
  induction s as [|c s IH]; [reflexivity|]. cbn [stringForall JS.replaceSlashes].
  intros [Hc Hs]%andb_true_iff. fold (isSlash c).
  destruct (isSlash c) eqn:Hslash.
  - rewrite empty_append. now apply IH.
  - cbn [stringForall]. now rewrite Hslash, Hc, IH.
Qed.

Lemma sanitizeFolderName_clean_folder (name : string) :
  cleanFolderName (sanitizeFolderName name) = true.
Proof.
  unfold sanitizeFolderName, JS.replaceWhiteSpace.
  apply replaceSlashes_clean, replaceSpaces_no_space. lia.
Qed.

(** X1. A sanitized folder name holds no slash and no ASCII white-space
    character, whatever the name was. *)
Theorem sanitizeFolderName_clean (name : string) :
  cleanFolderName (sanitizeFolderName name) = true.
Proof. apply sanitizeFolderName_clean_folder. Qed.

Lemma splitSlash_length s :
  length (JS.splitSlash s) = S (countSlashes s).
Proof.
  induction s as [|c s IH]; [reflexivity|].
  cbn [JS.splitSlash countSlashes]. fold (isSlash c).
  destruct (isSlash c); cbn; [now rewrite IH|].
  destruct (JS.splitSlash s); [discriminate | exact IH].
Qed.

Lemma splitSlash_app a b :
  JS.splitSlash (a ++ String "/" b)
  = (JS.splitSlash a ++ JS.splitSlash b)%list.
Proof.
  induction a as [|c a IH]; [reflexivity|].
  rewrite String_append. cbn [JS.splitSlash]. rewrite IH.
  destruct (Ascii.eqb c "/"); [reflexivity|].
  pose proof (splitSlash_length a) as Hlength.
  destruct (JS.splitSlash a); [discriminate | reflexivity].
Qed.

Lemma splitSlash_no_slash s :
  countSlashes s = O -> JS.splitSlash s = [s].
Proof.
  induction s as [|c s IH]; [reflexivity|].
  cbn [JS.splitSlash countSlashes]. fold (isSlash c).
  destruct (isSlash c); [discriminate|]. now intros ->%IH.
Qed.

Lemma removelast_length {A} (l : list A) :
  length (removelast l) = pred (length l).
Proof.
  induction l as [|x [|y l] IH]; [reflexivity..|].
  cbn [removelast length] in *. now rewrite IH.
Qed.

(** X2. The folder path of a name has one folder for every slash of the
    name, and every folder is free of slashes and ASCII white space. *)
Theorem parseVariablePath_folders (variableName : string) :
  length (folders (parseVariablePath variableName))
  = countSlashes variableName
  /\ Forall (fun folder => cleanFolderName folder = true)
       (folders (parseVariablePath variableName)).
Proof.
  unfold parseVariablePath. cbn [folders]. split.
  - now rewrite length_map, removelast_length, splitSlash_length.
  - apply Forall_map, Forall_forall. intros part _.
    apply sanitizeFolderName_clean_folder.
Qed.

(** X3. For a name that ends in a slash and a leaf without slash, the
    folders are the sanitized segments before the last slash; the token name
    is the leaf in kebab case, except for a leaf made of digits only, which
    becomes the kebab-cased segment before it, a hyphen and the digits. *)
Theorem parseVariablePath_leaf (parent leaf : string) :
  countSlashes leaf = O ->
  parseVariablePath (parent ++ String "/" leaf)
  = {| folders := map sanitizeFolderName (JS.splitSlash parent);
       filename :=
         if JS.isNumeric leaf
         then toKebabCase (List.last (JS.splitSlash parent) "") ++ "-" ++ leaf
         else toKebabCase leaf |}.
Proof.
  intros Hleaf. unfold parseVariablePath.
  rewrite splitSlash_app, (splitSlash_no_slash leaf Hleaf).
  rewrite removelast_last, last_last, length_app, splitSlash_length.
  cbn [length]. replace (1 <? _)%nat with true by (symmetry; apply Nat.ltb_lt; lia).
  now rewrite andb_true_r.
Qed.

(** X4. A name without a slash has no folder, and its token name is the
    whole name in kebab case, also when the name is made of digits only. *)
Theorem parseVariablePath_top_level (variableName : string) :
  countSlashes variableName = O ->
  parseVariablePath variableName
  = {| folders := []; filename := toKebabCase variableName |}.
Proof.
  intros Hname. unfold parseVariablePath.
  rewrite (splitSlash_no_slash _ Hname). cbn. now rewrite andb_false_r.
Qed.

End Paths.

(** ** Colour encoding *)

Section Shape.

Lemma upperHexDigit_digit d :
  0 <= d < 16 -> isUpperHexDigit (upperHexDigit d) = true.
Proof.
  intros Hd.
  assert (Hcases : d = 0 \/ d = 1 \/ d = 2 \/ d = 3 \/ d = 4 \/ d = 5
                   \/ d = 6 \/ d = 7 \/ d = 8 \/ d = 9 \/ d = 10 \/ d = 11
                   \/ d = 12 \/ d = 13 \/ d = 14 \/ d = 15) by lia.
  repeat destruct Hcases as [-> | Hcases]; subst; reflexivity.
Qed.

Lemma twoHexDigits_digits n :
  0 <= n <= 255 -> stringForall isUpperHexDigit (twoHexDigits n) = true.
Proof.
  intros Hn. unfold twoHexDigits. cbn [stringForall].
  rewrite !upperHexDigit_digit; [reflexivity| |].
  - apply Z.mod_pos_bound. lia.
  - split; [apply Z.div_pos; lia | apply Z.div_lt_upper_bound; lia].
Qed.

Lemma toHex_shape v :
  unitInterval v ->
  exists high low,
    JS.toUpperCase (toHex v) = String high (String low "")
    /\ isUpperHexDigit high = true /\ isUpperHexDigit low = true.
Proof.
  intros Hv. destruct (toHex_channelByte v Hv) as [Hbyte Hhex].
  pose proof (twoHexDigits_digits _ Hbyte) as Hdigits.
  rewrite Hhex. unfold twoHexDigits in *. cbn in Hdigits.
  apply andb_true_iff in Hdigits as [Hhigh Hlow].
  rewrite andb_true_r in Hlow. eauto.
Qed.

(** X5. For a colour whose channels lie between 0 and 1, [rgbaToHex] is a
    hash sign followed by upper-case hexadecimal digits only: eight of them
    when alpha is defined and below 1, six otherwise. *)
Theorem rgbaToHex_shape (c : RGBA) :
  channelsInUnitInterval c ->
  exists digits,
    rgbaToHex c = String "#" digits
    /\ stringForall isUpperHexDigit digits = true
    /\ String.length digits = if alphaShown c then 8%nat else 6%nat.
Proof.
  intros (Hr & Hg & Hb & Ha). unfold rgbaToHex, alphaShown.
  destruct (toHex_shape _ Hr) as (r1 & r2 & Hred & Hr1 & Hr2).
  destruct (toHex_shape _ Hg) as (g1 & g2 & Hgreen & Hg1 & Hg2).
  destruct (toHex_shape _ Hb) as (b1 & b2 & Hblue & Hb1 & Hb2).
  destruct (a c) as [alpha|].
  - destruct (toHex_shape _ Ha) as (a1 & a2 & Halpha & Ha1 & Ha2).
    destruct (alpha <? 1)%float;
      rewrite !toUpperCase_app, ?Halpha, Hred, Hgreen, Hblue;
      eexists; (split; [reflexivity|]);
      cbv [String.append stringForall String.length];
      now rewrite ?Ha1, ?Ha2, Hr1, Hr2, Hg1, Hg2, Hb1, Hb2.
  - rewrite !toUpperCase_app, Hred, Hgreen, Hblue.
    eexists; (split; [reflexivity|]).
    cbv [String.append stringForall String.length].
    now rewrite Hr1, Hr2, Hg1, Hg2, Hb1, Hb2.
Qed.

End Shape.

(** ** Colour resolver *)

Section Resolution.
Context `{L : Locale}.

Lemma property_head {V} key (value : V) rest :
  property key ((key, value) :: rest) = Some value.
Proof. cbn. now rewrite String.eqb_refl. Qed.

Lemma resolveVariableValue_raw_color variable modeId c :
  property modeId variable.(Var.valuesByMode) = Some (VColor c) ->
  resolveVariableValue variable modeId None
  = Some {| hex := rgbaToHex c; primitiveName := variable.(Var.name) ++ "" |}.
Proof. unfold resolveVariableValue. now intros ->. Qed.

Lemma string_append_empty s : s ++ "" = s.
Proof.
  induction s as [|c s IH]; [reflexivity|].
  change (String c (s ++ "") = String c s). now rewrite IH.
Qed.

(** What [resolveColor] returns once the primitive is found and has no raw
    value at the primitive mode, when the search by brand mode type falls
    through. *)
Lemma resolveColor_falls_through
    fuel figma variable modeId primitiveModeId brandModeType
    aliasId primitiveVar :
  property modeId variable.(Var.valuesByMode) = Some (VAlias aliasId) ->
  getVariableById figma !! aliasId = Some primitiveVar ->
  noRawValue primitiveVar primitiveModeId ->
  fallsThrough figma primitiveVar brandModeType ->
  resolveColor (S fuel) figma variable modeId primitiveModeId brandModeType
  = Some (firstAvailableMode primitiveVar).
Proof.
  intros Hvalue Htarget Hdirect Hfalls. cbn [resolveColor].
  rewrite Hvalue, Htarget, (resolveVariableValue_noRawValue _ _ _ Hdirect).
  destruct brandModeType as [modeType|]; [|reflexivity].
  cbn [fallsThrough] in Hfalls.
  destruct (findMatchingMode figma primitiveVar modeType) as [matchingMode|];
    [|reflexivity].
  rewrite resolveVariableValue_noRawValue by now left.
  revert Hfalls.
  destruct (property matchingMode.(Mode.modeId) primitiveVar.(Var.valuesByMode))
    as [[]|]; cbn [truthy isVariableAlias]; intros Hfalls;
    solve [reflexivity | discriminate Hfalls].
Qed.

(** X6. A variable that holds a raw colour at the requested mode resolves
    to the hex of that colour with provenance "Raw", whatever the document,
    the primitive mode and the brand mode type are. *)
Theorem resolveColor_raw_color
    fuel figma variable modeId primitiveModeId brandModeType c :
  property modeId variable.(Var.valuesByMode) = Some (VColor c) ->
  resolveColor (S fuel) figma variable modeId primitiveModeId brandModeType
  = Some {| hex := rgbaToHex c; primitiveName := "Raw" |}.
Proof. intros Hvalue. cbn [resolveColor]. now rewrite Hvalue. Qed.

(** X7. When the value at the requested mode aliases a primitive that holds
    a raw colour at the primitive mode, [resolveColor] returns the hex of
    that colour with the primitive's name, without suffix, as provenance; the
    brand mode type plays no part. *)
Theorem resolveColor_direct
    fuel figma variable modeId primitiveModeId brandModeType
    aliasId primitiveVar c :
  property modeId variable.(Var.valuesByMode) = Some (VAlias aliasId) ->
  getVariableById figma !! aliasId = Some primitiveVar ->
  property primitiveModeId primitiveVar.(Var.valuesByMode) = Some (VColor c) ->
  resolveColor (S fuel) figma variable modeId primitiveModeId brandModeType
  = Some {| hex := rgbaToHex c; primitiveName := primitiveVar.(Var.name) |}.
Proof.
  intros Hvalue Htarget Hcolor. cbn [resolveColor].
  rewrite Hvalue, Htarget, (resolveVariableValue_raw_color _ _ _ Hcolor).
  now rewrite string_append_empty.
Qed.

(** X8. When the primitive has no raw value at the primitive mode and the
    search by brand mode type falls through, [resolveColor] takes the first
    mode the primitive has a value for: if that value is a raw colour, the
    result is its hex, with the primitive's name followed by " (fallback)". *)
Theorem resolveColor_first_available
    fuel figma variable modeId primitiveModeId brandModeType
    aliasId primitiveVar firstMode c others :
  property modeId variable.(Var.valuesByMode) = Some (VAlias aliasId) ->
  getVariableById figma !! aliasId = Some primitiveVar ->
  noRawValue primitiveVar primitiveModeId ->
  fallsThrough figma primitiveVar brandModeType ->
  primitiveVar.(Var.valuesByMode) = (firstMode, VColor c) :: others ->
  resolveColor (S fuel) figma variable modeId primitiveModeId brandModeType
  = Some {| hex := rgbaToHex c;
            primitiveName := primitiveVar.(Var.name) ++ " (fallback)" |}.
Proof.
  intros Hvalue Htarget Hdirect Hfalls Hfirst.
  rewrite (resolveColor_falls_through _ _ _ _ _ _ _ _
             Hvalue Htarget Hdirect Hfalls).
  unfold firstAvailableMode, resolveVariableValue.
  now rewrite Hfirst, property_head.
Qed.

(** X9. In the same situation, when the primitive has no value at all, or
    the first mode it has a value for holds an alias (or a falsy value), the
    result is the magenta sentinel with provenance "Unresolved: " and the
    primitive's name: the modes after the first one are never looked at. *)
Theorem resolveColor_exhausted
    fuel figma variable modeId primitiveModeId brandModeType
    aliasId primitiveVar :
  property modeId variable.(Var.valuesByMode) = Some (VAlias aliasId) ->
  getVariableById figma !! aliasId = Some primitiveVar ->
  noRawValue primitiveVar primitiveModeId ->
  fallsThrough figma primitiveVar brandModeType ->
  match primitiveVar.(Var.valuesByMode) with
  | [] => True
  | (_, value) :: _ =>
      truthy (Some value) = false \/ isVariableAlias (Some value) = true
  end ->
  resolveColor (S fuel) figma variable modeId primitiveModeId brandModeType
  = Some {| hex := "#FF00FF";
            primitiveName := "Unresolved: " ++ primitiveVar.(Var.name) |}.
Proof.
  intros Hvalue Htarget Hdirect Hfalls Hfirst.
  rewrite (resolveColor_falls_through _ _ _ _ _ _ _ _
             Hvalue Htarget Hdirect Hfalls).
  unfold firstAvailableMode.
  destruct primitiveVar.(Var.valuesByMode) as [|[firstMode value] others] eqn:Hmodes;
    [reflexivity|].
  rewrite resolveVariableValue_noRawValue; [reflexivity|].
  unfold noRawValue. now rewrite Hmodes, property_head.
Qed.

Lemma resolveColor_cycle
    figma modeType (calls : Var.t -> string -> string -> Prop)
    fuel variable modeId primitiveModeId :
  closedUnderReentry figma modeType calls ->
  calls variable modeId primitiveModeId ->
  resolveColor fuel figma variable modeId primitiveModeId (Some modeType)
  = None.
Proof.
  intros Hclosed. revert variable modeId primitiveModeId.
  induction fuel as [|fuel IH]; intros variable modeId primitiveModeId Hcall;
    [reflexivity|].
  destruct (Hclosed _ _ _ Hcall)
    as (primitiveVar & foundMode
        & (aliasId & matchingMode & Hvalue & Htarget & Hdirect & Hfound
           & <- & Halias) & Hnext).
  cbn [resolveColor].
  rewrite Hvalue, Htarget, (resolveVariableValue_noRawValue _ _ _ Hdirect).
  rewrite Hfound.
  rewrite resolveVariableValue_noRawValue by now right.
  rewrite Halias. now rewrite (IH _ _ _ Hnext).
Qed.

(** X10. Along a cycle of aliases [resolveColor] never returns: for a set of
    calls that is closed under re-entry, no amount of fuel gives a result. *)
Theorem resolveColor_cycle_never_returns
    figma modeType (calls : Var.t -> string -> string -> Prop)
    fuel variable modeId primitiveModeId :
  closedUnderReentry figma modeType calls ->
  calls variable modeId primitiveModeId ->
  resolveColor fuel figma variable modeId primitiveModeId (Some modeType)
  = None.
Proof. apply resolveColor_cycle. Qed.

Lemma resolveColor_fuel_le fuel fuel' figma variable modeId primitiveModeId
    brandModeType result :
  (fuel <= fuel')%nat ->
  resolveColor fuel figma variable modeId primitiveModeId brandModeType
  = Some result ->
  resolveColor fuel' figma variable modeId primitiveModeId brandModeType
  = Some result.
Proof.
  induction 1 as [|fuel' _ IH]; [trivial|].
  intros Hresult. now apply resolveColor_more_fuel, IH.
Qed.

(** X11. In a document whose aliases descend (no alias cycle), every
    resolution of a variable of the document returns, and returns the same
    result for every depth of recursion above the rank of the variable. *)
Theorem resolveColor_terminates
    figma rank variable modeId primitiveModeId brandModeType :
  aliasesDescend figma rank ->
  variable ∈ documentVariables figma ->
  exists result,
    forall fuel, (rank variable < fuel)%nat ->
      resolveColor fuel figma variable modeId primitiveModeId brandModeType
      = Some result.
Proof.
  intros Hrank Hdoc.
  destruct (resolveColor_returns figma rank Hrank (rank variable) variable
              modeId primitiveModeId brandModeType Hdoc (le_n _))
    as [result Hresult].
  exists result. intros fuel Hfuel.
  eapply resolveColor_fuel_le; [|exact Hresult]. lia.
Qed.

Lemma resolveVariableValue_hex variable modeId modeName result :
  resolveVariableValue variable modeId modeName = Some result ->
  hex result = "#000000"
  \/ exists c,
       property modeId variable.(Var.valuesByMode) = Some (VColor c)
       /\ hex result = rgbaToHex c.
Proof.
  unfold resolveVariableValue.
  destruct (property modeId _) as [[| | |c|]|]; cbn;
    repeat match goal with
      | |- context [if ?b then _ else _] => destruct b
      end;
    try discriminate; intros [= <-]; cbn; eauto.
Qed.

Lemma hexFrom_target figma variable aliasId primitiveVar hexCode :
  getVariableById figma !! aliasId = Some primitiveVar ->
  hexFrom figma primitiveVar hexCode -> hexFrom figma variable hexCode.
Proof.
  intros Htarget [Hblack | [Hmagenta | (holder & mode & c & Hholder & Hc & Hhex)]];
    [now left | now right; left |].
  right; right. exists holder, mode, c. split; [|now split].
  right. destruct Hholder as [-> | Hholder]; eauto.
Qed.

Lemma resolveVariableValue_hexFrom figma variable aliasId primitiveVar
    modeId modeName result :
  getVariableById figma !! aliasId = Some primitiveVar ->
  resolveVariableValue primitiveVar modeId modeName = Some result ->
  hexFrom figma variable (hex result).
Proof.
  intros Htarget [Hblack | (c & Hc & Hhex)]%resolveVariableValue_hex;
    [now left|].
  right; right. exists primitiveVar, modeId, c. eauto.
Qed.

Lemma firstAvailableMode_hexFrom figma variable aliasId primitiveVar :
  getVariableById figma !! aliasId = Some primitiveVar ->
  hexFrom figma variable (hex (firstAvailableMode primitiveVar)).
Proof.
  intros Htarget. unfold firstAvailableMode.
  destruct primitiveVar.(Var.valuesByMode) as [|[firstMode value] others];
    [now right; left|].
  destruct (resolveVariableValue primitiveVar firstMode _) as [result|] eqn:Hfirst;
    [|now right; left].
  eapply resolveVariableValue_hexFrom; eauto.
Qed.

(** X12. [resolveColor] never invents a colour: the hex of every result is
    "#000000", the sentinel "#FF00FF", or the hex of a raw colour that the
    variable, or a variable reached through the document, holds. *)
Theorem resolveColor_hex_origin fuel : forall figma variable modeId
    primitiveModeId brandModeType result,
  resolveColor fuel figma variable modeId primitiveModeId brandModeType
  = Some result ->
  hexFrom figma variable (hex result).
Proof.
  induction fuel as [|fuel IH];
    intros figma variable modeId primitiveModeId brandModeType result;
    [discriminate|].
  cbn [resolveColor].
  destruct (property modeId _) as [[| | |c|aliasId]|] eqn:Hvalue;
    try (intros [= <-]; now left).
  { intros [= <-]. right; right. exists variable, modeId, c. eauto. }
  destruct (getVariableById figma !! aliasId) as [primitiveVar|] eqn:Htarget;
    [|intros [= <-]; now right; left].
  destruct (resolveVariableValue primitiveVar primitiveModeId None)
    as [directResult|] eqn:Hdirect.
  { intros [= <-]. eapply resolveVariableValue_hexFrom; eauto. }
  destruct brandModeType as [modeType|];
    [|intros [= <-]; eapply firstAvailableMode_hexFrom; eauto].
  destruct (findMatchingMode figma primitiveVar modeType) as [matchingMode|];
    [|intros [= <-]; eapply firstAvailableMode_hexFrom; eauto].
  destruct (resolveVariableValue primitiveVar _ (Some _))
    as [modeResult|] eqn:Hmode.
  { intros [= <-]. eapply resolveVariableValue_hexFrom; eauto. }
  destruct (isVariableAlias _);
    [|intros [= <-]; eapply firstAvailableMode_hexFrom; eauto].
  destruct (resolveColor fuel figma primitiveVar _ _ _) as [nested|] eqn:Hnested;
    [|discriminate].
  intros [= <-]. cbn [hex].
  eapply hexFrom_target; [exact Htarget|]. eapply IH, Hnested.
Qed.

Lemma find_none {A} (f : A -> bool) (l : list A) :
  List.find f l = None <-> Forall (fun x => f x = false) l.
Proof.
  induction l as [|x l IH]; cbn; [now split; constructor|].
  rewrite Forall_cons. destruct (f x); [split; [discriminate | now intros [? _]]|].
  rewrite IH. tauto.
Qed.

(** X13. The search by brand mode type gives the first mode, in the order of
    the collection, whose lower-cased name contains the type; it gives
    nothing, and does not fail, when the variable names no collection, when
    the lookup of the collection rejects or finds nothing, and when no mode
    name contains the type. *)
Theorem findMatchingMode_first_or_nothing figma variable modeType :
  let contains (mode : Mode.t) :=
    JS.includes (toLowerCase mode.(Mode.name)) (brandModeTypeString modeType) in
  let lookup :=
    getVariableCollectionById figma variable.(Var.variableCollectionId) in
  match findMatchingMode figma variable modeType with
  | Some matchingMode =>
      exists collection earlier later,
        variable.(Var.variableCollectionId) <> ""
        /\ lookup = Resolves (Some collection)
        /\ collection.(Collection.modes)
           = (earlier ++ matchingMode :: later)%list
        /\ Forall (fun mode => contains mode = false) earlier
        /\ contains matchingMode = true
  | None =>
      variable.(Var.variableCollectionId) = ""
      \/ lookup = Rejects
      \/ lookup = Resolves None
      \/ exists collection,
           lookup = Resolves (Some collection)
           /\ Forall (fun mode => contains mode = false)
                collection.(Collection.modes)
  end.
Proof.
  intros contains lookup. unfold findMatchingMode. fold lookup.
  destruct (String.eqb_spec variable.(Var.variableCollectionId) "")
    as [Hnone | Hsome]; [now left|].
  destruct lookup as [|[collection|]] eqn:Hlookup;
    [now right; left | | now right; right; left].
  destruct (List.find _ _) as [matchingMode|] eqn:Hfind.
  - apply find_first_inv in Hfind as (earlier & later & Hmodes & Hearlier & Hmatch).
    exists collection, earlier, later. auto.
  - apply find_none in Hfind. right; right; right. eauto.
Qed.

Lemma resolveBrandMode_entry fuel figma variable binding modeType entry :
  resolveBrandMode fuel figma variable binding modeType = Some entry ->
  (is_Some entry
   <-> exists bd, binding = Some bd /\ bd.(Binding.modeId) <> "")
  /\ forall bd, binding = Some bd -> bd.(Binding.modeId) <> "" ->
       entry = resolveColor fuel figma variable bd.(Binding.modeId)
                 bd.(Binding.primitiveModeId) (Some modeType).
Proof.
  unfold resolveBrandMode. destruct binding as [bd|].
  - destruct (String.eqb_spec bd.(Binding.modeId) "") as [Hempty | Hmode].
    + intros [= <-]. split.
      * split; [now intros [? [=]] | intros (bd' & [= <-] & Hmode); contradiction].
      * intros bd' [= <-] Hmode. contradiction.
    + destruct (resolveColor _ _ _ _ _ _) as [res|] eqn:Hres; [|discriminate].
      cbn. intros [= <-]. split.
      * split; eauto.
      * intros bd' [= <-] _. now rewrite Hres.
  - intros [= <-]. split.
    + split; [now intros [? [=]] | now intros (bd & [=] & _)].
    + intros bd [=].
Qed.

(** X14. The colours of a brand have a "light" entry exactly when the brand
    binds a light mode with a non-empty mode id, and the entry is then the
    resolution at that mode and primitive mode with the type light; the same
    holds of "dark". A binding left out is skipped, not resolved. *)
Theorem resolveBrandColors_entries fuel figma variable brand brandResult :
  resolveBrandColors fuel figma variable brand = Some brandResult ->
  ((is_Some brandResult.(BrandResult.light)
    <-> exists bd, brand.(Brand.light) = Some bd /\ bd.(Binding.modeId) <> "")
   /\ forall bd, brand.(Brand.light) = Some bd -> bd.(Binding.modeId) <> "" ->
        brandResult.(BrandResult.light)
        = resolveColor fuel figma variable bd.(Binding.modeId)
            bd.(Binding.primitiveModeId) (Some light))
  /\ ((is_Some brandResult.(BrandResult.dark)
       <-> exists bd, brand.(Brand.dark) = Some bd /\ bd.(Binding.modeId) <> "")
      /\ forall bd, brand.(Brand.dark) = Some bd -> bd.(Binding.modeId) <> "" ->
           brandResult.(BrandResult.dark)
           = resolveColor fuel figma variable bd.(Binding.modeId)
               bd.(Binding.primitiveModeId) (Some dark)).
Proof.
  unfold resolveBrandColors.
  destruct (resolveBrandMode _ _ _ brand.(Brand.light) _)
    as [lightResult|] eqn:Hlight; [|discriminate].
  destruct (resolveBrandMode _ _ _ brand.(Brand.dark) _)
    as [darkResult|] eqn:Hdark; [|discriminate].
  cbn. intros [= <-]. cbn.
  split; eapply resolveBrandMode_entry; eassumption.
Qed.



End Resolution.

(** ** Tree builder *)

Section Levels.

Lemma findGroup_first folderName items i children :
  findGroup folderName items = Some (i, children) ->
  exists earlier later,
    items = (earlier ++ Group folderName children :: later)%list
    /\ length earlier = i /\ folderName ∉ groupNames earlier.
Proof.
  revert i. induction items as [|[token | name grandchildren] items IH];
    cbn; intros i; [discriminate| |].
  - destruct (findGroup folderName items) as [[j found]|]; [|discriminate].
    intros [= <- <-].
    destruct (IH j eq_refl) as (earlier & later & -> & <- & Hfresh).
    now exists (Token token :: earlier), later.
  - destruct (String.eqb_spec name folderName) as [-> | Hname].
    + intros [= <- <-]. exists [], items. repeat split. apply not_elem_of_nil.
    + destruct (findGroup folderName items) as [[j found]|]; [|discriminate].
      intros [= <- <-].
      destruct (IH j eq_refl) as (earlier & later & -> & <- & Hfresh).
      exists (Group name grandchildren :: earlier), later.
      repeat split. change (folderName ∉ name :: groupNames earlier).
      rewrite not_elem_of_cons. split; [congruence | exact Hfresh].
Qed.

Lemma levelAt_cons folderName deeper items :
  levelAt (folderName :: deeper) items
  = groupChildren folderName items ≫= levelAt deeper.
Proof.
  unfold groupChildren. cbn.
  now destruct (findGroup folderName items) as [[i children]|].
Qed.

Lemma groupChildren_cons folderName item items :
  groupChildren folderName (item :: items)
  = match item with
    | Group name children =>
        if String.eqb name folderName then Some children
        else groupChildren folderName items
    | Token _ => groupChildren folderName items
    end.
Proof.
  unfold groupChildren. destruct item as [token | name children]; cbn.
  - now destruct (findGroup folderName items) as [[i found]|].
  - destruct (String.eqb name folderName); [reflexivity|].
    now destruct (findGroup folderName items) as [[i found]|].
Qed.

Lemma groupChildren_app folderName items items' :
  groupChildren folderName (items ++ items')
  = match groupChildren folderName items with
    | Some children => Some children
    | None => groupChildren folderName items'
    end.
Proof.
  induction items as [|item items IH]; [reflexivity|].
  cbn [app]. rewrite !groupChildren_cons.
  destruct item as [token | name children]; [exact IH|].
  destruct (String.eqb name folderName); [reflexivity | exact IH].
Qed.

Lemma groupChildren_fresh folderName items :
  folderName ∉ groupNames items -> groupChildren folderName items = None.
Proof.
  induction items as [|[token | name children] items IH];
    [reflexivity| |]; rewrite groupChildren_cons; cbn.
  - exact IH.
  - rewrite not_elem_of_cons. intros [Hname Hfresh].
    destruct (String.eqb_spec name folderName); [congruence | now apply IH].
Qed.

Lemma groupChildren_middle folderName name earlier children later :
  name ∉ groupNames earlier ->
  groupChildren folderName (earlier ++ Group name children :: later)
  = if String.eqb name folderName then Some children
    else groupChildren folderName (earlier ++ later).
Proof.
  intros Hfresh. rewrite !groupChildren_app, groupChildren_cons.
  destruct (String.eqb_spec name folderName) as [-> | Hname]; [|reflexivity].
  now rewrite groupChildren_fresh.
Qed.

Lemma groupChildren_first folderName items children :
  groupChildren folderName items = Some children ->
  exists earlier later,
    items = (earlier ++ Group folderName children :: later)%list
    /\ folderName ∉ groupNames earlier.
Proof.
  unfold groupChildren.
  destruct (findGroup folderName items) as [[i found]|] eqn:Hfind;
    [|discriminate].
  cbn. intros [= <-].
  apply findGroup_first in Hfind as (earlier & later & -> & _ & Hfresh).
  eauto.
Qed.

Lemma groupChildren_None folderName items :
  groupChildren folderName items = None -> folderName ∉ groupNames items.
Proof.
  unfold groupChildren.
  destruct (findGroup folderName items) as [[i found]|] eqn:Hfind;
    [discriminate|].
  intros _. now apply findGroup_None.
Qed.

Lemma levelAt_nil folders : default [] (levelAt folders []) = [].
Proof. now destruct folders. Qed.

Lemma insertTokenIntoTree_level folders : forall rootArray tokenObj,
  levelAt folders (insertTokenIntoTree rootArray folders tokenObj)
  = Some (default [] (levelAt folders rootArray) ++ [Token tokenObj])%list.
Proof.
  induction folders as [|folderName deeper IH]; intros rootArray tokenObj;
    [reflexivity|].
  rewrite !levelAt_cons.
  destruct (groupChildren folderName rootArray) as [children|] eqn:Hgroup.
  - apply groupChildren_first in Hgroup as (earlier & later & -> & Hfresh).
    rewrite insertTokenIntoTree_reuses by assumption.
    rewrite groupChildren_middle, String.eqb_refl by assumption.
    cbn. apply IH.
  - apply groupChildren_None in Hgroup.
    rewrite insertTokenIntoTree_creates by assumption.
    rewrite groupChildren_app, (groupChildren_fresh _ _ Hgroup).
    rewrite groupChildren_cons, String.eqb_refl. cbn.
    rewrite IH. now rewrite levelAt_nil.
Qed.

(** X16. After an insertion, the array at the end of the folder path is
    what it was before (empty when a group of the path was missing) with the
    token pushed at its end. *)
Theorem insertTokenIntoTree_then_lookup
    (rootArray : list Item) (folders : list string) (tokenObj : TokenObject.t) :
  levelAt folders (insertTokenIntoTree rootArray folders tokenObj)
  = Some (default [] (levelAt folders rootArray) ++ [Token tokenObj])%list.
Proof. apply insertTokenIntoTree_level. Qed.

Lemma insertTokenIntoTree_keeps folders : forall rootArray tokenObj path kept,
  tokenAt path rootArray kept ->
  tokenAt path (insertTokenIntoTree rootArray folders tokenObj) kept.
Proof.
  induction folders as [|folderName deeper IH];
    intros rootArray tokenObj path kept (level & Hlevel & Hin).
  - cbn [insertTokenIntoTree]. destruct path as [|name path].
    + injection Hlevel as <-. eexists. split; [reflexivity|].
      apply elem_of_app. now left.
    + rewrite levelAt_cons in Hlevel. exists level. split; [|exact Hin].
      rewrite levelAt_cons, groupChildren_app.
      destruct (groupChildren name rootArray); [exact Hlevel | discriminate].
  - destruct (groupChildren folderName rootArray) as [children|] eqn:Hgroup.
    + apply groupChildren_first in Hgroup as (earlier & later & -> & Hfresh).
      rewrite insertTokenIntoTree_reuses by assumption.
      destruct path as [|name path].
      * injection Hlevel as <-. eexists. split; [reflexivity|].
        rewrite !elem_of_app, !elem_of_cons in *.
        destruct Hin as [Hin | [[=] | Hin]]; auto.
      * unfold tokenAt.
        rewrite levelAt_cons, groupChildren_middle in Hlevel |- * by assumption.
        destruct (String.eqb folderName name); [|now exists level].
        cbn in Hlevel |- *. apply IH. now exists level.
    + apply groupChildren_None in Hgroup.
      rewrite insertTokenIntoTree_creates by assumption.
      destruct path as [|name path].
      * injection Hlevel as <-. eexists. split; [reflexivity|].
        apply elem_of_app. now left.
      * rewrite levelAt_cons in Hlevel. exists level. split; [|exact Hin].
        rewrite levelAt_cons, groupChildren_app.
        destruct (groupChildren name rootArray); [exact Hlevel | discriminate].
Qed.

(** X17. An insertion moves no token: a token that was an entry of the array
    at the end of some folder path is still an entry of the array at the end
    of that path afterwards. *)
Theorem insertTokenIntoTree_keeps_tokens
    (rootArray : list Item) (folders : list string) (tokenObj : TokenObject.t)
    (path : list string) (kept : TokenObject.t) :
  tokenAt path rootArray kept ->
  tokenAt path (insertTokenIntoTree rootArray folders tokenObj) kept.
Proof. apply insertTokenIntoTree_keeps. Qed.

(** X18. An insertion adds its token to the tokens of the tree and changes
    nothing else: the tokens of the tree afterwards are the new token and
    those that were there. *)
Theorem insertTokenIntoTree_adds_one_token
    (rootArray : list Item) (folders : list string) (tokenObj : TokenObject.t) :
  tokensOf (insertTokenIntoTree rootArray folders tokenObj)
  ≡ₚ tokenObj :: tokensOf rootArray.
Proof. apply tokensOf_insertTokenIntoTree. Qed.

(** X19. An insertion keeps the entries of the root array where they are,
    with their types and names, and pushes at most one entry after them. *)
Theorem insertTokenIntoTree_keeps_entries
    (rootArray : list Item) (folders : list string) (tokenObj : TokenObject.t) :
  exists pushed,
    itemLabel <$> insertTokenIntoTree rootArray folders tokenObj
    = ((itemLabel <$> rootArray) ++ pushed)%list
    /\ (length pushed <= 1)%nat.
Proof.
  destruct folders as [|folderName deeper]; cbn [insertTokenIntoTree].
  - eexists. rewrite fmap_app. split; [reflexivity | cbn; lia].
  - destruct (findGroup folderName rootArray) as [[i children]|] eqn:Hfind.
    + apply findGroup_Some in Hfind as (earlier & later & -> & <-).
      replace (length earlier) with (length earlier + 0)%nat by lia.
      rewrite insert_app_r. cbn. exists [].
      rewrite app_nil_r, !fmap_app. split; [reflexivity | cbn; lia].
    + eexists. rewrite fmap_app. split; [reflexivity | cbn; lia].
Qed.

End Levels.

(** ** Sorting *)

Section SortingKeeps.
Context `{L : Locale}.

Lemma groupNames_sortItem items :
  groupNames (map sortItem items) = groupNames items.
Proof.
  unfold groupNames.
  induction items as [|[token | name children] items IH]; cbn;
    [reflexivity | exact IH | now f_equal].
Qed.

Lemma groupNames_Permutation items items' :
  items ≡ₚ items' -> groupNames items ≡ₚ groupNames items'.
Proof.
  induction 1 as [|item items items' _ IH|first second items|? ? ? _ IH1 _ IH2].
  - reflexivity.
  - destruct item; cbn; [exact IH | now constructor].
  - destruct first, second; cbn; try reflexivity. apply perm_swap.
  - now rewrite IH1.
Qed.

Lemma groupNames_sortTokensAlphabetically items :
  groupNames (sortTokensAlphabetically items) ≡ₚ groupNames items.
Proof.
  unfold sortTokensAlphabetically.
  etransitivity; [apply groupNames_Permutation, sort_Permutation|].
  now rewrite groupNames_sortItem.
Qed.

Lemma sortItem_unique item :
  belowItem (fun level => NoDup (groupNames level)) item ->
  belowItem (fun level => NoDup (groupNames level)) (sortItem item).
Proof.
  induction item as [token | name children IH] using Item_nested_ind;
    [trivial|].
  cbn [sortItem]. rewrite !belowItem_Group. intros [Hnames Hbelow]. split.
  - cbn beta in *.
    change (NoDup (groupNames (sortTokensAlphabetically children))).
    now rewrite groupNames_sortTokensAlphabetically.
  - rewrite sort_Permutation. apply Forall_map.
    rewrite Forall_forall in *. auto.
Qed.

Lemma sortTokensAlphabetically_unique items :
  uniqueGroupNames items -> uniqueGroupNames (sortTokensAlphabetically items).
Proof.
  intros [Hnames Hbelow]. split.
  - cbn beta in *. now rewrite groupNames_sortTokensAlphabetically.
  - unfold sortTokensAlphabetically. rewrite sort_Permutation.
    apply Forall_map. rewrite Forall_forall in *.
    intros item Hin. now apply sortItem_unique, Hbelow.
Qed.

Lemma group_name_elem name children items :
  Group name children ∈ items -> name ∈ groupNames items.
Proof.
  induction items as [|item items IH]; [now intros ?%elem_of_nil|].
  intros [<- | Hin]%elem_of_cons; [apply list_elem_of_here|].
  destruct item; cbn; [|apply list_elem_of_further]; now apply IH.
Qed.

Lemma groupChildren_unique name children items :
  NoDup (groupNames items) -> Group name children ∈ items ->
  groupChildren name items = Some children.
Proof.
  induction items as [|item items IH]; [now intros _ ?%elem_of_nil|].
  rewrite groupChildren_cons. destruct item as [token | other found]; cbn.
  - intros Hnames [[=] | Hin]%elem_of_cons. now apply IH.
  - intros [Hfresh Hnames]%NoDup_cons [[= -> ->] | Hin]%elem_of_cons.
    + now rewrite String.eqb_refl.
    + destruct (String.eqb_spec other name) as [-> | _]; [|now apply IH].
      exfalso. apply Hfresh. eapply group_name_elem, Hin.
Qed.

Lemma groupChildren_elem name children items :
  groupChildren name items = Some children -> Group name children ∈ items.
Proof.
  intros (earlier & later & -> & _)%groupChildren_first.
  apply elem_of_app. right. apply list_elem_of_here.
Qed.

Lemma sortTokensAlphabetically_elem item items :
  item ∈ items -> sortItem item ∈ sortTokensAlphabetically items.
Proof.
  intros Hin. unfold sortTokensAlphabetically.
  rewrite sort_Permutation. now apply list_elem_of_fmap_2.
Qed.

Lemma sortTokensAlphabetically_keeps path : forall items kept,
  uniqueGroupNames items ->
  tokenAt path items kept ->
  tokenAt path (sortTokensAlphabetically items) kept.
Proof.
  induction path as [|name path IH];
    intros items kept Hunique (level & Hlevel & Hin).
  - injection Hlevel as <-. eexists. split; [reflexivity|].
    now apply (sortTokensAlphabetically_elem (Token kept)).
  - unfold tokenAt. rewrite levelAt_cons in Hlevel |- *.
    destruct (groupChildren name items) as [children|] eqn:Hgroup;
      [|discriminate].
    apply groupChildren_elem in Hgroup.
    pose proof (sortTokensAlphabetically_unique _ Hunique) as [Hnames _].
    rewrite (groupChildren_unique name (sortTokensAlphabetically children));
      [|exact Hnames
       |apply (sortTokensAlphabetically_elem (Group name children)), Hgroup].
    cbn in Hlevel |- *. apply IH; [|now exists level].
    destruct Hunique as [_ Hbelow]. rewrite Forall_forall in Hbelow.
    pose proof (Hbelow _ Hgroup) as Hchildren.
    now apply belowItem_Group in Hchildren.
Qed.

(** X20. Sorting loses no token and adds none: the tokens of the sorted
    forest are those of the forest. *)
Theorem sortTokensAlphabetically_keeps_tokens (items : list Item) :
  tokensOf (sortTokensAlphabetically items) ≡ₚ tokensOf items.
Proof. apply tokensOf_sortTokensAlphabetically. Qed.

(** X21. Sorting keeps the groups of every level distinct: a forest in
    which no array holds two groups of one name is sorted into such a
    forest. *)
Theorem sortTokensAlphabetically_keeps_unique_groups (items : list Item) :
  uniqueGroupNames items -> uniqueGroupNames (sortTokensAlphabetically items).
Proof. apply sortTokensAlphabetically_unique. Qed.

(** X22. In a forest whose groups are distinct at every level, sorting
    leaves every token under its folder path: a token found at the end of a
    path before sorting is found at the end of the same path afterwards. *)
Theorem sortTokensAlphabetically_keeps_paths
    (items : list Item) (path : list string) (kept : TokenObject.t) :
  uniqueGroupNames items ->
  tokenAt path items kept ->
  tokenAt path (sortTokensAlphabetically items) kept.
Proof. apply sortTokensAlphabetically_keeps. Qed.

End SortingKeeps.

(** ** Export *)

Section Runs.
Context `{L : Locale}.

(** The three ways an export runs: an unknown collection throws after the
    start notification, a resolution that does not return stops there, and
    otherwise the sorted tree is posted between the two notifications. *)
Lemma exportTokens_run fuel figma config :
  let started := Notify (analyzing (translations (configLang config))) in
  (~ collectionsKnown figma config
   /\ exportTokens fuel figma config = ([started], Threw collectionsNotFound))
  \/ (collectionsKnown figma config
      /\ processVariables fuel figma (tokenVariables figma config)
           config.(ExportConfig.brands) = None
      /\ exportTokens fuel figma config = ([started], OutOfFuel))
  \/ (exists rootArray,
        collectionsKnown figma config
        /\ processVariables fuel figma (tokenVariables figma config)
             config.(ExportConfig.brands) = Some rootArray
        /\ exportTokens fuel figma config
           = (completedRun figma config rootArray, Returned tt)).
Proof.
  intros started. unfold collectionsKnown.
  destruct (decide (config.(ExportConfig.primitiveCollectionId)
                    ∈ map Collection.id (getLocalVariableCollections figma)))
    as [Hprimitives | Hprimitives];
    [destruct (decide (config.(ExportConfig.tokenCollectionId)
                       ∈ map Collection.id (getLocalVariableCollections figma)))
       as [Htokens | Htokens]|].
  - right. unfold exportTokens, validateAndGetCollections.
    destruct (find_present _ _ Hprimitives) as [primitives ->].
    destruct (find_present _ _ Htokens) as [semantic ->].
    cbn -[processVariables sortTokensAlphabetically].
    fold (tokenVariables figma config).
    destruct (processVariables _ _ _ _) as [rootArray|].
    + right. exists rootArray. auto.
    + left. auto.
  - left. split; [tauto|]. unfold exportTokens.
    now rewrite validateAndGetCollections_unknown by now left.
  - left. split; [tauto|]. unfold exportTokens.
    now rewrite validateAndGetCollections_unknown by now right.
Qed.

Lemma processLoop_unique fuel figma brands variables :
  forall rootArray result,
    uniqueGroupNames rootArray ->
    processLoop fuel figma variables brands rootArray = Some result ->
    uniqueGroupNames result.
Proof.
  induction variables as [|variable variables IH]; cbn [processLoop];
    intros rootArray result Hunique.
  - now intros [= <-].
  - destruct (decide _); [|now apply IH].
    destruct (createTokenObject _ _ _ _); [|discriminate].
    cbn. apply IH. now apply insertTokenIntoTree_unique.
Qed.

Lemma createTokenObject_name fuel figma variable brands tokenObj :
  createTokenObject fuel figma variable brands = Some tokenObj ->
  tokenObj.(TokenObject.name) = filename (parseVariablePath variable.(Var.name)).
Proof.
  unfold createTokenObject.
  destruct (resolveBrands _ _ _ _ _); cbn; [|discriminate].
  now intros [= <-].
Qed.

Lemma processLoop_places fuel figma brands variables :
  forall rootArray result,
    processLoop fuel figma variables brands rootArray = Some result ->
    (forall path kept, tokenAt path rootArray kept -> tokenAt path result kept)
    /\ Forall (fun variable =>
                variable.(Var.resolvedType) = COLOR -> placed result variable)
         variables.
Proof.
  induction variables as [|variable variables IH]; cbn [processLoop];
    intros rootArray result.
  - intros [= <-]. split; [trivial | constructor].
  - destruct (decide (variable.(Var.resolvedType) = COLOR)) as [Hcolor | Hother].
    + destruct (createTokenObject _ _ _ _) as [tokenObj|] eqn:Htoken;
        [|discriminate].
      cbn. intros [Hkept Hrest]%IH. split.
      * intros path kept Hat. now apply Hkept, insertTokenIntoTree_keeps.
      * constructor; [|exact Hrest]. intros _. exists tokenObj.
        split; [|split].
        -- apply Hkept. eexists. split; [apply insertTokenIntoTree_level|].
           apply elem_of_app. right. apply list_elem_of_here.
        -- eapply createTokenObject_path, Htoken.
        -- eapply createTokenObject_name, Htoken.
    + intros [Hkept Hrest]%IH. split; [exact Hkept|].
      constructor; [|exact Hrest]. intros Hcolor. contradiction.
Qed.

Lemma postedDocuments_completedRun figma config rootArray :
  postedDocuments (completedRun figma config rootArray)
  = [ {| metadata := createExportMetadata figma;
         tokens := sortTokensAlphabetically rootArray |} ].
Proof. reflexivity. Qed.

Ltac completed_run Hrun :=
  let Hcase := fresh "Hcase" in
  let rootArray := fresh "rootArray" in
  let Hloop := fresh "Hloop" in
  match type of Hrun with
  | exportTokens ?fuel ?figma ?config = _ =>
      destruct (exportTokens_run fuel figma config)
        as [[_ Hcase] | [(_ & _ & Hcase) | (rootArray & _ & Hloop & Hcase)]];
      rewrite Hcase in Hrun; [discriminate Hrun | discriminate Hrun |];
      injection Hrun as <-
  end.

(** X23. The tree of an exported document holds no two groups of one name
    in any of its arrays. *)
Theorem exportTokens_tree_unique_groups fuel figma config effects data :
  exportTokens fuel figma config = (effects, Returned tt) ->
  data ∈ postedDocuments effects ->
  uniqueGroupNames (tokens data).
Proof.
  intros Hrun. completed_run Hrun.
  rewrite postedDocuments_completedRun. intros ->%list_elem_of_singleton.
  cbn [tokens]. apply sortTokensAlphabetically_unique.
  eapply processLoop_unique; [apply uniqueGroupNames_nil | exact Hloop].
Qed.

(** X24. In the tree of an exported document every array, at every depth,
    has its groups before its tokens and each tier in the order of
    [localeCompare]. *)
Theorem exportTokens_tree_sorted {consistent : ConsistentLocale L}
    fuel figma config effects data :
  exportTokens fuel figma config = (effects, Returned tt) ->
  data ∈ postedDocuments effects ->
  everyLevel levelOrdered (tokens data).
Proof.
  intros Hrun. completed_run Hrun.
  rewrite postedDocuments_completedRun. intros ->%list_elem_of_singleton.
  cbn [tokens]. split.
  - apply sortTokensAlphabetically_levelOrdered.
  - unfold sortTokensAlphabetically. rewrite sort_Permutation.
    apply Forall_map, Forall_forall. intros item _. apply sortItem_below.
Qed.

(** X25. In an exported document, the token of every colour variable of the
    token collection is found by following the sanitized folders of the
    variable's name from the root; its path is the name of the variable and
    its name the file name parsed from it. *)
Theorem exportTokens_places_tokens fuel figma config effects data variable :
  exportTokens fuel figma config = (effects, Returned tt) ->
  data ∈ postedDocuments effects ->
  variable ∈ colorVariables figma config.(ExportConfig.tokenCollectionId) ->
  placed (tokens data) variable.
Proof.
  intros Hrun. completed_run Hrun.
  rewrite postedDocuments_completedRun. intros ->%list_elem_of_singleton.
  cbn [tokens]. unfold processVariables in Hloop.
  intros [Hin [Hcoll Hcolor]%andb_true_iff]%list_elem_of_In%filter_In.
  apply bool_decide_eq_true in Hcolor.
  pose proof (processLoop_unique _ _ _ _ _ _ uniqueGroupNames_nil Hloop)
    as Hunique.
  apply processLoop_places in Hloop as [_ Hplaced].
  rewrite Forall_forall in Hplaced.
  destruct (Hplaced variable) as (tokenObj & Hat & Hpath & Hname);
    [|exact Hcolor|].
  - apply list_elem_of_In, filter_In. auto.
  - exists tokenObj. split; [|now split].
    now apply sortTokensAlphabetically_keeps.
Qed.

(** X26. An export posts a document only when it completes, and then one
    document only: a run that throws, or whose resolution does not return,
    posts nothing. *)
Theorem exportTokens_posts_once fuel figma config :
  match (exportTokens fuel figma config).2 with
  | Returned _ =>
      length (postedDocuments (exportTokens fuel figma config).1) = 1%nat
  | _ => postedDocuments (exportTokens fuel figma config).1 = []
  end.
Proof.
  destruct (exportTokens_run fuel figma config)
    as [[_ ->] | [(_ & _ & ->) | (rootArray & _ & _ & ->)]]; reflexivity.
Qed.

(** X27. The only error an export throws is "Collections not found", and it
    throws it exactly when one of the two collection ids of the
    configuration is the id of no collection of the document. *)
Theorem exportTokens_throws_only_unknown_collection fuel figma config message :
  (exportTokens fuel figma config).2 = Threw message
  <-> message = collectionsNotFound /\ ~ collectionsKnown figma config.
Proof.
  destruct (exportTokens_run fuel figma config)
    as [[Hunknown ->] | [(Hknown & _ & ->) | (rootArray & Hknown & _ & ->)]];
    cbn; split; try discriminate; try tauto.
  - intros [= <-]. auto.
  - now intros [-> _].
Qed.


(** X29. An export of a document without alias cycle completes: when every
    alias descends and both collections are known, a depth of recursion
    above the ranks of the variables is enough for the export to post its
    document. *)
Theorem exportTokens_completes_without_cycle figma rank fuel config :
  aliasesDescend figma rank ->
  Forall (fun variable => (rank variable <= fuel)%nat)
    (getLocalVariables figma) ->
  collectionsKnown figma config ->
  exists rootArray,
    exportTokens (S fuel) figma config
    = (completedRun figma config rootArray, Returned tt).
Proof.
  intros Hrank Hfuel [Htokens Hprimitives].
  destruct (exportTokens_completes figma rank fuel config
              Hrank Hfuel Htokens Hprimitives) as [effects Hrun].
  destruct (exportTokens_run (S fuel) figma config)
    as [[_ Hcase] | [(_ & _ & Hcase) | (rootArray & _ & _ & Hcase)]];
    rewrite Hcase in Hrun; [discriminate Hrun | discriminate Hrun |].
  now exists rootArray.
Qed.

Lemma resolveBrandColors_cycle figma modeType calls fuel variable brand bd :
  closedUnderReentry figma modeType calls ->
  bindingOf brand modeType = Some bd ->
  bd.(Binding.modeId) <> "" ->
  calls variable bd.(Binding.modeId) bd.(Binding.primitiveModeId) ->
  resolveBrandColors fuel figma variable brand = None.
Proof.
  intros Hclosed Hbinding Hmode Hcall.
  assert (Hnone : resolveBrandMode fuel figma variable (Some bd) modeType
                  = None).
  { unfold resolveBrandMode.
    apply String.eqb_neq in Hmode as ->.
    now rewrite (resolveColor_cycle _ _ _ _ _ _ _ Hclosed Hcall). }
  unfold resolveBrandColors, bindingOf in *.
  destruct modeType; rewrite Hbinding, Hnone; [reflexivity|].
  now destruct (resolveBrandMode _ _ _ _ light).
Qed.

Lemma resolveBrands_none fuel figma variable brand brands :
  brand ∈ brands ->
  resolveBrandColors fuel figma variable brand = None ->
  forall modes, resolveBrands fuel figma variable brands modes = None.
Proof.
  intros Hin Hnone.
  induction brands as [|first brands IH]; [now apply elem_of_nil in Hin|].
  intros modes. cbn [resolveBrands].
  apply elem_of_cons in Hin as [<- | Hin]; [now rewrite Hnone|].
  destruct (resolveBrandColors fuel figma variable first); [|reflexivity].
  cbn. now apply IH.
Qed.

Lemma processLoop_none fuel figma brands variable variables :
  variable ∈ variables ->
  variable.(Var.resolvedType) = COLOR ->
  createTokenObject fuel figma variable brands = None ->
  forall rootArray,
    processLoop fuel figma variables brands rootArray = None.
Proof.
  intros Hin Hcolor Hnone.
  induction variables as [|first variables IH]; [now apply elem_of_nil in Hin|].
  intros rootArray. cbn [processLoop].
  apply elem_of_cons in Hin as [<- | Hin].
  - destruct (decide _); [|contradiction]. now rewrite Hnone.
  - destruct (decide _); [|now apply IH].
    destruct (createTokenObject fuel figma first brands); [|reflexivity].
    cbn. now apply IH.
Qed.

(** X30. One alias cycle blocks the whole export: when a colour variable of
    the token collection, at the binding of some brand, enters calls that
    are closed under re-entry, the export of known collections never
    completes and posts nothing, whatever the depth of recursion allowed. *)
Theorem exportTokens_blocked_by_cycle
    figma config modeType (calls : Var.t -> string -> string -> Prop)
    variable brand bd fuel :
  collectionsKnown figma config ->
  closedUnderReentry figma modeType calls ->
  variable ∈ colorVariables figma config.(ExportConfig.tokenCollectionId) ->
  brand ∈ config.(ExportConfig.brands) ->
  bindingOf brand modeType = Some bd ->
  bd.(Binding.modeId) <> "" ->
  calls variable bd.(Binding.modeId) bd.(Binding.primitiveModeId) ->
  exportTokens fuel figma config
  = ([Notify (analyzing (translations (configLang config)))], OutOfFuel).
Proof.
  intros Hknown Hclosed Hvariable Hbrand Hbinding Hmode Hcall.
  apply list_elem_of_In, filter_In in Hvariable
    as [Hin [Hcoll Hcolor]%andb_true_iff].
  apply bool_decide_eq_true in Hcolor.
  assert (Hloop : processVariables fuel figma (tokenVariables figma config)
                    config.(ExportConfig.brands) = None).
  { apply (processLoop_none _ _ _ variable); [|exact Hcolor|].
    - apply list_elem_of_In, filter_In. auto.
    - unfold createTokenObject.
      rewrite (resolveBrands_none _ _ _ brand); [reflexivity | exact Hbrand |].
      eapply resolveBrandColors_cycle; eauto. }
  destruct (exportTokens_run fuel figma config)
    as [[Hunknown _] | [(_ & _ & Hcase) | (rootArray & _ & Hsome & _)]].
  - contradiction.
  - exact Hcase.
  - rewrite Hloop in Hsome. discriminate.
Qed.

End Runs.

(** ** The properties at the sample documents *)

Lemma parseVariablePath_leaf_witness :
  @parseVariablePath Sample.locale "UI/Color/Gray/50"
  = {| folders := ["UI"; "Color"; "Gray"]; filename := "gray-50" |}.
Proof.
  etransitivity.
  - apply (@parseVariablePath_leaf Sample.locale "UI/Color/Gray" "50").
    reflexivity.
  - vm_compute. reflexivity.
Defined.

Lemma parseVariablePath_top_level_witness :
  @parseVariablePath Sample.locale "Primary Color"
  = {| folders := []; filename := "primary-color" |}.
Proof.
  etransitivity.
  - apply (@parseVariablePath_top_level Sample.locale "Primary Color").
    reflexivity.
  - vm_compute. reflexivity.
Defined.

Lemma rgbaToHex_shape_witness :
  exists digits,
    rgbaToHex {| r := 0.25; g := 0.5; b := 1; a := Some 0.75%float |}
    = String "#" digits
    /\ stringForall isUpperHexDigit digits = true
    /\ String.length digits = 8%nat.
Proof.
  apply (rgbaToHex_shape
           {| r := 0.25; g := 0.5; b := 1; a := Some 0.75%float |}).
  repeat split; reflexivity.
Defined.

Lemma resolveColor_raw_color_witness :
  @resolveColor Sample.locale 1 Sample.figma Sample.privateToken
    "t:1" "p:1" (Some light)
  = Some {| hex := "#FF0000"; primitiveName := "Raw" |}.
Proof.
  etransitivity.
  - apply (@resolveColor_raw_color Sample.locale 0 Sample.figma
             Sample.privateToken "t:1" "p:1" (Some light)
             {| r := 1; g := 0; b := 0; a := Some 1%float |}).
    reflexivity.
  - vm_compute. reflexivity.
Defined.

Lemma resolveColor_direct_witness :
  @resolveColor Sample.locale 1 Sample.figma Sample.borderPrimary
    "t:1" "p:2" (Some light)
  = Some {| hex := "#000000"; primitiveName := "UI/Color/Gray/50" |}.
Proof.
  etransitivity.
  - apply (@resolveColor_direct Sample.locale 0 Sample.figma
             Sample.borderPrimary "t:1" "p:2" (Some light)
             "v:gray50" Sample.gray50
             {| r := 0; g := 0; b := 0; a := Some 1%float |}).
    + reflexivity.
    + vm_compute. reflexivity.
    + reflexivity.
  - vm_compute. reflexivity.
Defined.

Lemma resolveColor_first_available_witness :
  @resolveColor Sample.locale 1 Sample.figma Sample.borderPrimary
    "t:2" "p:2" (Some dark)
  = Some {| hex := "#FFFFFF";
            primitiveName := "UI/Color/Brand/700 (fallback)" |}.
Proof.
  etransitivity.
  - apply (@resolveColor_first_available Sample.locale 0 Sample.figma
             Sample.borderPrimary "t:2" "p:2" (Some dark)
             "v:brand700" Sample.brand700 "p:1"
             {| r := 1; g := 1; b := 1; a := Some 1%float |}
             [ ("p:3", Sample.rgb 1 0 0) ]).
    + reflexivity.
    + vm_compute. reflexivity.
    + left. reflexivity.
    + vm_compute. reflexivity.
    + reflexivity.
  - vm_compute. reflexivity.
Defined.

Lemma resolveColor_exhausted_witness :
  @resolveColor Sample.locale 1 Sample.figma Sample.backgroundPrimary
    "t:1" "p:1" None
  = Some {| hex := "#FF00FF";
            primitiveName := "Unresolved: UI/Color/Accent" |}.
Proof.
  etransitivity.
  - apply (@resolveColor_exhausted Sample.locale 0 Sample.figma
             Sample.backgroundPrimary "t:1" "p:1" None
             "v:accent" Sample.accent).
    + reflexivity.
    + vm_compute. reflexivity.
    + left. reflexivity.
    + exact I.
    + right. reflexivity.
  - vm_compute. reflexivity.
Defined.

Lemma Loop_closed : @closedUnderReentry Sample.locale Loop.figma dark Loop.calls.
Proof.
  intros variable modeId primitiveModeId [Hvariable [-> ->]].
  destruct Hvariable as [-> | ->].
  - exists Loop.pong, "d:1". split.
    + exists "v:pong", {| Mode.modeId := "d:1"; Mode.name := "Dark" |}.
      repeat split; try (vm_compute; reflexivity).
      right. reflexivity.
    + repeat split. now right.
  - exists Loop.ping, "d:1". split.
    + exists "v:ping", {| Mode.modeId := "d:1"; Mode.name := "Dark" |}.
      repeat split; try (vm_compute; reflexivity).
      right. reflexivity.
    + repeat split. now left.
Qed.

Lemma resolveColor_cycle_never_returns_witness :
  @resolveColor Sample.locale 50 Loop.figma Loop.ping "d:1" "d:1" (Some dark)
  = None.
Proof.
  apply (@resolveColor_cycle_never_returns Sample.locale Loop.figma dark
           Loop.calls 50 Loop.ping "d:1" "d:1").
  - exact Loop_closed.
  - repeat split. now left.
Defined.

Lemma Sample_descends : aliasesDescend Sample.figma Sample.rank.
Proof. apply aliasesDescendCheck_sound. vm_compute. reflexivity. Qed.

Lemma resolveColor_terminates_witness :
  exists result,
    forall fuel, (Sample.rank Sample.backgroundPrimary < fuel)%nat ->
      @resolveColor Sample.locale fuel Sample.figma Sample.backgroundPrimary
        "t:2" "p:1" (Some dark)
      = Some result.
Proof.
  apply (@resolveColor_terminates Sample.locale Sample.figma Sample.rank
           Sample.backgroundPrimary "t:2" "p:1" (Some dark)).
  - exact Sample_descends.
  - apply elem_of_app. left. apply list_elem_of_In. cbn. tauto.
Defined.

Lemma resolveColor_hex_origin_witness :
  hexFrom Sample.figma Sample.borderPrimary "#FF0000".
Proof.
  apply (@resolveColor_hex_origin Sample.locale 1 Sample.figma
           Sample.borderPrimary "t:2" "p:3" (Some dark)
           {| hex := "#FF0000"; primitiveName := "UI/Color/Brand/700" |}).
  vm_compute. reflexivity.
Defined.

Lemma resolveBrandColors_entries_witness :
  @resolveBrandColors Sample.locale 1 Sample.figma Sample.borderPrimary
    Partial.lightOnly = Some Partial.colours
  /\ (is_Some Partial.colours.(BrandResult.light)
      <-> exists bd, Partial.lightOnly.(Brand.light) = Some bd
                     /\ bd.(Binding.modeId) <> "")
  /\ (is_Some Partial.colours.(BrandResult.dark)
      <-> exists bd, Partial.lightOnly.(Brand.dark) = Some bd
                     /\ bd.(Binding.modeId) <> "").
Proof.
  assert (Hresult : @resolveBrandColors Sample.locale 1 Sample.figma
                      Sample.borderPrimary Partial.lightOnly
                    = Some Partial.colours)
    by (vm_compute; reflexivity).
  split; [exact Hresult|].
  destruct (@resolveBrandColors_entries Sample.locale 1 Sample.figma
              Sample.borderPrimary Partial.lightOnly Partial.colours Hresult)
    as [[Hlight _] [Hdark _]].
  split; assumption.
Defined.


Lemma insertTokenIntoTree_keeps_tokens_witness :
  tokenAt ["Colors"; "Border"]
    (insertTokenIntoTree (insertAll Sample.calls) ["Colors"; "Text"]
       (Sample.token "muted"))
    (Sample.token "primary").
Proof.
  apply (insertTokenIntoTree_keeps_tokens (insertAll Sample.calls)
           ["Colors"; "Text"] (Sample.token "muted")
           ["Colors"; "Border"] (Sample.token "primary")).
  exists [ Token (Sample.token "primary") ]. split.
  - vm_compute. reflexivity.
  - apply list_elem_of_here.
Defined.

Lemma sortTokensAlphabetically_keeps_unique_groups_witness :
  uniqueGroupNames
    (@sortTokensAlphabetically Sample.locale (insertAll Sample.calls)).
Proof.
  apply (@sortTokensAlphabetically_keeps_unique_groups Sample.locale
           (insertAll Sample.calls)).
  apply insertAll_unique.
Defined.

Lemma sortTokensAlphabetically_keeps_paths_witness :
  tokenAt ["Colors"; "Border"]
    (@sortTokensAlphabetically Sample.locale (insertAll Sample.calls))
    (Sample.token "primary").
Proof.
  apply (@sortTokensAlphabetically_keeps_paths Sample.locale
           (insertAll Sample.calls) ["Colors"; "Border"]
           (Sample.token "primary")).
  - apply insertAll_unique.
  - exists [ Token (Sample.token "primary") ]. split.
    + vm_compute. reflexivity.
    + apply list_elem_of_here.
Defined.

Lemma Sample_exported :
  @exportTokens Sample.locale 3 Sample.figma Sample.config
  = ((@exportTokens Sample.locale 3 Sample.figma Sample.config).1,
     Returned tt).
Proof. vm_compute. reflexivity. Qed.

Lemma exportTokens_tree_unique_groups_witness :
  length
    (postedDocuments
       (@exportTokens Sample.locale 3 Sample.figma Sample.config).1) = 1%nat
  /\ Forall (fun data => uniqueGroupNames (tokens data))
       (postedDocuments
          (@exportTokens Sample.locale 3 Sample.figma Sample.config).1).
Proof.
  split; [vm_compute; reflexivity|].
  apply Forall_forall. intros data Hposted.
  apply (@exportTokens_tree_unique_groups Sample.locale 3 Sample.figma
           Sample.config _ data Sample_exported Hposted).
Defined.

Lemma exportTokens_tree_sorted_witness :
  length
    (postedDocuments
       (@exportTokens Sample.locale 3 Sample.figma Sample.config).1) = 1%nat
  /\ Forall (fun data => everyLevel (@levelOrdered Sample.locale) (tokens data))
       (postedDocuments
          (@exportTokens Sample.locale 3 Sample.figma Sample.config).1).
Proof.
  split; [vm_compute; reflexivity|].
  apply Forall_forall. intros data Hposted.
  apply (@exportTokens_tree_sorted Sample.locale Sample_consistent 3
           Sample.figma Sample.config _ data Sample_exported Hposted).
Defined.

Lemma exportTokens_places_tokens_witness :
  length
    (postedDocuments
       (@exportTokens Sample.locale 3 Sample.figma Sample.config).1) = 1%nat
  /\ Forall (fun data => @placed Sample.locale (tokens data)
                           Sample.borderPrimary)
       (postedDocuments
          (@exportTokens Sample.locale 3 Sample.figma Sample.config).1).
Proof.
  split; [vm_compute; reflexivity|].
  apply Forall_forall. intros data Hposted.
  apply (@exportTokens_places_tokens Sample.locale 3 Sample.figma
           Sample.config _ data Sample.borderPrimary Sample_exported Hposted).
  apply list_elem_of_In, filter_In. split; [cbn; tauto | reflexivity].
Defined.

Lemma exportTokens_completes_without_cycle_witness :
  exists rootArray,
    @exportTokens Sample.locale 3 Sample.figma Sample.config
    = (@completedRun Sample.locale Sample.figma Sample.config rootArray,
       Returned tt).
Proof.
  apply (@exportTokens_completes_without_cycle Sample.locale Sample.figma
           Sample.rank 2 Sample.config).
  - exact Sample_descends.
  - cbn [getLocalVariables Sample.figma]. unfold Sample.allVariables.
    repeat (apply Forall_cons; split; [vm_compute; lia|]). constructor.
  - split; apply (bool_decide_unpack _); vm_compute; exact I.
Defined.

Lemma exportTokens_blocked_by_cycle_witness :
  @exportTokens Sample.locale 50 Loop.figma Loop.config
  = ([Notify "⏳ Analysing..."], OutOfFuel).
Proof.
  apply (@exportTokens_blocked_by_cycle Sample.locale Loop.figma Loop.config
           dark Loop.calls Loop.ping
           {| Brand.name := "Only";
              Brand.light := None;
              Brand.dark := Some {| Binding.modeId := "d:1";
                                    Binding.primitiveModeId := "d:1" |} |}
           {| Binding.modeId := "d:1"; Binding.primitiveModeId := "d:1" |}
           50).
  - split; apply (bool_decide_unpack _); vm_compute; exact I.
  - exact Loop_closed.
  - apply list_elem_of_In, filter_In. split; [cbn; tauto | reflexivity].
  - apply list_elem_of_here.
  - reflexivity.
  - discriminate.
  - repeat split. now left.
Defined.
